(** * The publish / unpublish lifecycle of dimagram/creator

    A shallow embedding of [backend/cmd/server.go] ([publishProcess],
    [uploadToSFTP], [invalidateCache], [uploadFileToSFTP], the handlers of
    [/api/album], [/api/publish] and [/api/upload]), of
    [backend/cmd/unpublish.go] ([unpublishProcess]) and of the editor of the
    Queue in [frontend/src/Album.jsx] ([onDragEnd], [deleteItem]).

    Go strings and byte slices are sequences of 8-bit characters, which is
    what [string] is.  The two local files [data/album.json] (the Queue) and
    [data/archive.json] (the Archive) and the remote file [today.json] (the
    pointer) are the state; what the outside world answers to each call that
    can fail (file system, SSH, HTTP) is an input of the run. *)

From Stdlib Require Import String Ascii List ZArith Lia Bool Arith.
From Stdlib Require Import Permutation DecimalString DecimalZ DecimalPos.
Import ListNotations.

Local Open Scope string_scope.
Local Open Scope list_scope.
Local Open Scope nat_scope.

(** ** Data model *)

(** [ID interface{}]: what [encoding/json] puts there for the documents the
    editor writes: nothing, a string, or a number.  The editor numbers its
    items with integers and [float64] holds them exactly, so a number is an
    integer here. *)
Inductive ItemID : Type :=
| IDNil
| IDString (s : string)
| IDNumber (n : Z).

Record AlbumItem : Type := mkItem {
  ID : ItemID;
  URL : string;
  Description : string;
  Credits : string
}.

(** ** [encoding/json], as the program uses it

    [Marshal] is [json.Marshal] on a [[]AlbumItem] that is not nil,
    [MarshalItem] is [json.Marshal] on one [AlbumItem], [Unmarshal] is
    [json.Unmarshal] into a [[]AlbumItem] ([None] when it returns an error).
    On values of these types [json.Marshal] returns no error. *)
Class Json : Type := {
  Marshal : list AlbumItem -> string;
  MarshalItem : AlbumItem -> string;
  Unmarshal : string -> option (list AlbumItem)
}.

(** What the proofs rely on, for the items the program writes (they all come
    out of [Unmarshal]): a document that was written whole reads back as the
    items written, and a document cut short does not parse. *)
Record JsonLaws (J : Json) : Prop := {
  unmarshal_marshal : forall l, Unmarshal (Marshal l) = Some l;
  unmarshal_cut : forall l n,
    n < String.length (Marshal l) -> Unmarshal (substring 0 n (Marshal l)) = None
}.

(** ** State *)

Record World : Type := mkWorld {
  album : option string;     (* data/album.json, [None]: no such file *)
  archive : option string;   (* data/archive.json *)
  today : option string      (* today.json on the SFTP server *)
}.

Inductive Path : Type := albumPath | archivePath.

Definition file (p : Path) (w : World) : option string :=
  match p with
  | albumPath => album w
  | archivePath => archive w
  end.

Definition store (p : Path) (c : string) (w : World) : World :=
  match p with
  | albumPath => {| album := Some c; archive := archive w; today := today w |}
  | archivePath => {| album := album w; archive := Some c; today := today w |}
  end.

Definition storeToday (c : string) (w : World) : World :=
  {| album := album w; archive := archive w; today := Some c |}.

(** ** Errors and log lines *)

Inductive IOError : Type := ENOENT | EIO.

Definition IsNotExist (e : IOError) : bool :=
  match e with ENOENT => true | EIO => false end.

Inductive SftpError : Type :=
| SftpEnvNotSet          (* required SFTP environment variables not set *)
| SftpInvalidPort        (* invalid SFTP port *)
| SftpKeyUnreadable      (* unable to read private key *)
| SftpKeyUnparsable      (* unable to parse private key *)
| SftpConnect            (* failed to connect to SSH server *)
| SftpNewClient          (* failed to create SFTP client *)
| SftpOpenLocal          (* failed to open local file *)
| SftpCreate             (* failed to create remote file *)
| SftpWrite.             (* failed to write to remote file *)

Inductive CacheError : Type :=
| ApiEnvNotSet           (* required API environment variables not set *)
| ApiRequest             (* error creating HTTP request *)
| ApiSend                (* error sending HTTP request *)
| ApiStatus (code : Z).  (* API error (status %d) *)

Inductive Error : Type :=
| ErrReadingAlbum (e : IOError)     (* error reading album.json *)
| ErrParsingAlbum                   (* error parsing album.json *)
| ErrNoItemsInAlbum                 (* no items in album.json *)
| ErrUploading (e : SftpError)      (* error uploading to SFTP server *)
| ErrParsingArchive                 (* error parsing archive.json *)
| ErrReadingArchive (e : IOError)   (* error reading archive.json *)
| ErrWritingArchive                 (* error writing to archive.json *)
| ErrWritingAlbum                   (* error writing to album.json *)
| ErrNoItemsInArchive.              (* No items in archive.json *)

Inductive Line : Type :=
| LogPublishing (id : ItemID) (url : string)
| LogUploaded
| LogInvalidated
| LogCacheWarning (e : CacheError)
| LogPublished
| LogUnpublishing (id : ItemID) (url : string)
| LogPointerMoved (id : ItemID)
| LogUnpublished.

(** ** What the outside world answers *)

Inductive WriteOutcome : Type :=
| WriteOk
| WriteErrOpen               (* the file could not be opened: it is untouched *)
| WriteErrAfter (n : nat).   (* emptied, [n] bytes written, then an error *)

Inductive SftpFault : Type :=
| SftpNoFault
| FaultKeyRead | FaultKeyParse | FaultDial | FaultClient | FaultCreate
| FaultWrite (n : nat).      (* created (emptied), [n] bytes written *)

Inductive HttpOutcome : Type :=
| HttpBadRequest             (* http.NewRequest fails *)
| HttpNoResponse             (* client.Do fails *)
| HttpStatus (code : Z).

Record Env : Type := mkEnv {
  SFTP_HOST : string;
  SFTP_PORT : string;
  SFTP_USER : string;
  SFTP_PASSWORD : string;
  SFTP_PRIVATE_KEY_PATH : string;
  BUNNY_API_KEY : string;
  BUNNY_CDN_URL : string;
  readFault : Path -> bool;          (* os.ReadFile fails though the file may exist *)
  writeOutcome : Path -> WriteOutcome;
  sftpFault : SftpFault;
  httpOutcome : HttpOutcome
}.

(** ** Runs: state, errors, the worlds passed through and the log *)

Record Run : Type := mkRun {
  now : World;
  past : list World;     (* the worlds before each change, latest first *)
  logged : list Line     (* latest first *)
}.

Definition start (w : World) : Run := {| now := w; past := []; logged := [] |}.

(** Every world of a run, latest first. *)
Definition points (r : Run) : list World := now r :: past r.

Definition Proc (X A : Type) : Type := Run -> (X + A) * Run.

Definition ret {X A : Type} (a : A) : Proc X A := fun r => (inr a, r).

Definition fail {X A : Type} (x : X) : Proc X A := fun r => (inl x, r).

Definition bind {X A B : Type} (m : Proc X A) (k : A -> Proc X B) : Proc X B :=
  fun r => match m r with
           | (inl x, r') => (inl x, r')
           | (inr a, r') => k a r'
           end.

(** [if err != nil { return fmt.Errorf("...: %v", err) }] *)
Definition orReturn {X Y A : Type} (m : Proc X A) (wrap : X -> Y) : Proc Y A :=
  fun r => match m r with
           | (inl x, r') => (inl (wrap x), r')
           | (inr a, r') => (inr a, r')
           end.

(** [err := f()], the error kept as a value. *)
Definition attempt {X Y A : Type} (m : Proc X A) : Proc Y (X + A) :=
  fun r => match m r with (res, r') => (inr res, r') end.

Definition change {X : Type} (f : World -> World) : Proc X unit :=
  fun r => (inr tt, {| now := f (now r); past := now r :: past r; logged := logged r |}).

Definition look {X A : Type} (f : World -> A) : Proc X A :=
  fun r => (inr (f (now r)), r).

Definition say {X : Type} (l : Line) : Proc X unit :=
  fun r => (inr tt, {| now := now r; past := past r; logged := l :: logged r |}).

Declare Scope proc_scope.
Delimit Scope proc_scope with proc.
Notation "x <- m ;; k" := (bind m (fun x => k))
  (at level 61, m at next level, right associativity) : proc_scope.
Notation "m ;; k" := (bind m (fun _ => k))
  (at level 61, right associativity) : proc_scope.
Notation "m !! w" := (orReturn m w) (at level 60) : proc_scope.
Local Open Scope proc_scope.

(** ** The operating system *)

Definition ReadFile (E : Env) (p : Path) : Proc IOError string :=
  c <- look (file p) ;;
  if readFault E p then fail EIO
  else match c with
       | None => fail ENOENT
       | Some data => ret data
       end.

(** [os.WriteFile]: open with [O_WRONLY|O_CREATE|O_TRUNC], which empties the
    file, then write, then close. *)
Definition WriteFile (E : Env) (p : Path) (data : string) : Proc IOError unit :=
  match writeOutcome E p with
  | WriteOk => change (store p "") ;; change (store p data)
  | WriteErrOpen => fail EIO
  | WriteErrAfter n =>
      change (store p "") ;; change (store p (substring 0 n data)) ;; fail EIO
  end.

Definition isEmpty (s : string) : bool :=
  match s with EmptyString => true | _ => false end.

Definition isDigit (c : ascii) : bool :=
  (48 <=? nat_of_ascii c) && (nat_of_ascii c <=? 57).

Fixpoint digitsValue (s : string) (acc : Z) : option Z :=
  match s with
  | EmptyString => Some acc
  | String c s' =>
      if isDigit c
      then digitsValue s' (10 * acc + Z.of_nat (nat_of_ascii c - 48))
      else None
  end.

(** [strconv.Atoi]: an optional sign, then decimal digits, within [int]. *)
Definition Atoi (s : string) : option Z :=
  let signed (neg : bool) (ds : string) :=
    if isEmpty ds then None
    else match digitsValue ds 0 with
         | Some v =>
             let z := if neg then (- v)%Z else v in
             if ((- 2 ^ 63 <=? z) && (z <=? 2 ^ 63 - 1))%Z then Some z else None
         | None => None
         end in
  match s with
  | String "+" ds => signed false ds
  | String "-" ds => signed true ds
  | _ => signed false s
  end.

Section Program.

Context {J : Json}.

Definition unmarshal {X : Type} (data : string) (err : X) : Proc X (list AlbumItem) :=
  match Unmarshal data with
  | Some items => ret items
  | None => fail err
  end.

(** ** [uploadToSFTP] *)
Definition uploadToSFTP (E : Env) (item : AlbumItem) : Proc SftpError unit :=
  let host := SFTP_HOST E in
  let portStr := SFTP_PORT E in
  let user := SFTP_USER E in
  let password := SFTP_PASSWORD E in
  let keyPath := SFTP_PRIVATE_KEY_PATH E in
  if isEmpty host || isEmpty user || (isEmpty password && isEmpty keyPath)
  then fail SftpEnvNotSet
  else
    _ <- (if isEmpty portStr then ret 22%Z
          else match Atoi portStr with
               | Some p => ret p
               | None => fail SftpInvalidPort
               end) ;;
    (if negb (isEmpty password) then ret tt
     else match sftpFault E with
          | FaultKeyRead => fail SftpKeyUnreadable
          | FaultKeyParse => fail SftpKeyUnparsable
          | _ => ret tt
          end) ;;
    match sftpFault E with
    | FaultDial => fail SftpConnect
    | FaultClient => fail SftpNewClient
    | FaultCreate => fail SftpCreate
    | FaultWrite n =>
        let content := MarshalItem item in
        change (storeToday "") ;;
        change (storeToday (substring 0 n content)) ;;
        fail SftpWrite
    | _ =>
        let content := MarshalItem item in
        change (storeToday "") ;;
        change (storeToday content) ;;
        say LogUploaded
    end.

(** ** [invalidateCache] *)
Definition invalidateCache (E : Env) : Proc CacheError unit :=
  let apiKey := BUNNY_API_KEY E in
  let cdnURL := BUNNY_CDN_URL E in
  if isEmpty apiKey || isEmpty cdnURL then fail ApiEnvNotSet
  else match httpOutcome E with
       | HttpBadRequest => fail ApiRequest
       | HttpNoResponse => fail ApiSend
       | HttpStatus code =>
           if ((code <? 200) || (300 <=? code))%Z then fail (ApiStatus code)
           else say LogInvalidated
       end.

(** ** [publishProcess] ([server.go]) *)
Definition publishProcess (E : Env) : Proc Error unit :=
  (* 1. Parse album.json *)
  albumFile <- ReadFile E albumPath !! ErrReadingAlbum ;;
  albumItems <- unmarshal albumFile ErrParsingAlbum ;;
  match albumItems with
  | [] => fail ErrNoItemsInAlbum
  | firstItem :: _ =>
      (* 2. Get the first item *)
      say (LogPublishing (ID firstItem) (URL firstItem)) ;;
      (* 3. Upload item to SFTP server *)
      uploadToSFTP E firstItem !! ErrUploading ;;
      (* 4. Invalidate CDN cache *)
      err <- attempt (invalidateCache E) ;;
      match err with
      | inl e => say (LogCacheWarning e)
      | inr _ => ret tt
      end ;;
      (* 5. Append the item to data/archive.json *)
      archiveFile <- attempt (ReadFile E archivePath) ;;
      archiveItems <- match archiveFile with
                      | inr data => unmarshal data ErrParsingArchive
                      | inl e => if negb (IsNotExist e)
                                 then fail (ErrReadingArchive e)
                                 else ret []
                      end ;;
      let archiveItems := archiveItems ++ [firstItem] in
      let archiveData := Marshal archiveItems in
      WriteFile E archivePath archiveData !! (fun _ => ErrWritingArchive) ;;
      (* 6. Delete the item from data/album.json *)
      let albumItems := skipn 1 albumItems in
      let albumData := Marshal albumItems in
      WriteFile E albumPath albumData !! (fun _ => ErrWritingAlbum) ;;
      say LogPublished
  end.

(** ** [unpublishProcess] ([unpublish.go]); an error is the message printed
    before [os.Exit(1)] *)
Definition unpublishProcess (E : Env) : Proc Error unit :=
  (* 1. Parse archive.json *)
  archiveFile <- ReadFile E archivePath !! ErrReadingArchive ;;
  archiveItems <- unmarshal archiveFile ErrParsingArchive ;;
  match archiveItems with
  | [] => fail ErrNoItemsInArchive
  | someItem :: _ =>
      (* 2. Get the last item from archive *)
      let lastIndex := length archiveItems - 1 in
      let lastItem := nth lastIndex archiveItems someItem in
      say (LogUnpublishing (ID lastItem) (URL lastItem)) ;;
      (* 3. Read album.json *)
      albumFile <- attempt (ReadFile E albumPath) ;;
      albumItems <- match albumFile with
                    | inr data => unmarshal data ErrParsingAlbum
                    | inl e => if negb (IsNotExist e)
                               then fail (ErrReadingAlbum e)
                               else ret []
                    end ;;
      (* 4. Remove the last item from archive and add to album *)
      let archiveItems := firstn lastIndex archiveItems in
      let albumItems := [lastItem] ++ albumItems in
      match archiveItems with
      | [] => ret tt
      | otherItem :: _ =>
          let newLastItem := nth (length archiveItems - 1) archiveItems otherItem in
          uploadToSFTP E newLastItem !! ErrUploading ;;
          err <- attempt (invalidateCache E) ;;
          match err with
          | inl e => say (LogCacheWarning e)
          | inr _ => ret tt
          end ;;
          say (LogPointerMoved (ID newLastItem))
      end ;;
      (* 6. Write back to archive.json *)
      let archiveData := Marshal archiveItems in
      WriteFile E archivePath archiveData !! (fun _ => ErrWritingArchive) ;;
      (* 7. Write back to album.json *)
      let albumData := Marshal albumItems in
      WriteFile E albumPath albumData !! (fun _ => ErrWritingAlbum) ;;
      say LogUnpublished
  end.

End Program.

(** ** Reading the state and the environment *)

Section Views.

Context {J : Json}.

(** The items a file holds: a missing file holds none. *)
Definition load (f : option string) : option (list AlbumItem) :=
  match f with
  | None => Some []
  | Some data => Unmarshal data
  end.

(** The persisted collection; nothing can be taken from a file that does not
    parse. *)
Definition persisted (f : option string) : list AlbumItem :=
  match load f with
  | Some items => items
  | None => []
  end.

Definition Queue (w : World) : list AlbumItem := persisted (album w).
Definition Archive (w : World) : list AlbumItem := persisted (archive w).

(** [Queue.front()], [Archive.back()] *)
Definition front (l : list AlbumItem) : option AlbumItem := nth_error l 0.
Definition back (l : list AlbumItem) : option AlbumItem := nth_error l (length l - 1).

(** No id occurs twice in the Queue and the Archive taken together. *)
Definition uniq (q a : list AlbumItem) : Prop := NoDup (map ID q ++ map ID a).

Definition IdUnique (w : World) : Prop := uniq (Queue w) (Archive w).

Inductive Invocation : Type := PUBLISH | UNPUBLISH.

Definition invoke (op : Invocation) (E : Env) : Proc Error unit :=
  match op with
  | PUBLISH => publishProcess E
  | UNPUBLISH => unpublishProcess E
  end.

(** The state an invocation leaves. *)
Definition next (op : Invocation) (E : Env) (w : World) : World :=
  now (snd (invoke op E (start w))).

(** The states reached from [w0] by invocations whose outcome is [allowed]. *)
Inductive Reachable (allowed : Invocation -> Error + unit -> Prop) (w0 : World)
  : World -> Prop :=
| ReachStart : Reachable allowed w0 w0
| ReachInvoke (w : World) (op : Invocation) (E : Env) (res : Error + unit) (r' : Run) :
    Reachable allowed w0 w ->
    invoke op E (start w) = (res, r') ->
    allowed op res ->
    Reachable allowed w0 (now r').

Definition anyOutcome (op : Invocation) (res : Error + unit) : Prop := True.

(** Every outcome but a PUBLISH that fails while it writes a collection. *)
Definition notHalfPublished (op : Invocation) (res : Error + unit) : Prop :=
  op = PUBLISH -> res <> inl ErrWritingArchive /\ res <> inl ErrWritingAlbum.

End Views.

(** The environment lets [uploadToSFTP] reach its last line. *)
Definition sftpWorks (E : Env) : bool :=
  negb (isEmpty (SFTP_HOST E) || isEmpty (SFTP_USER E)
        || (isEmpty (SFTP_PASSWORD E) && isEmpty (SFTP_PRIVATE_KEY_PATH E)))
  && (isEmpty (SFTP_PORT E)
      || match Atoi (SFTP_PORT E) with Some _ => true | None => false end)
  && match sftpFault E with
     | SftpNoFault => true
     | FaultKeyRead | FaultKeyParse => negb (isEmpty (SFTP_PASSWORD E))
     | _ => false
     end.

(** The environment lets [invalidateCache] return nil. *)
Definition cacheWorks (E : Env) : bool :=
  negb (isEmpty (BUNNY_API_KEY E) || isEmpty (BUNNY_CDN_URL E))
  && match httpOutcome E with
     | HttpStatus code => negb ((code <? 200) || (300 <=? code))%Z
     | _ => false
     end.

Definition diskWorks (E : Env) : Prop :=
  forall p, readFault E p = false /\ writeOutcome E p = WriteOk.

(** An integer in decimal digits: [fmt.Sprintf] with the verb d, and what
    [json.Marshal] writes for a number that is an integer. *)
Definition decimal (n : Z) : string := NilEmpty.string_of_int (Z.to_int n).

(** ** A reader and a writer for the compact documents [json.Marshal] writes

    An instance of [Json] that computes: the writer puts the four fields in
    the order of the struct, without white space; the reader is a
    character-by-character automaton for that form (and for [null]). *)

Module Compact.

Definition dq : ascii := "034"%char.
Definition bs : ascii := "092"%char.

Fixpoint escape (s : string) : string :=
  match s with
  | EmptyString => EmptyString
  | String c s' =>
      if Ascii.eqb c dq || Ascii.eqb c bs
      then String bs (String c (escape s'))
      else String c (escape s')
  end.

Definition quote (s : string) : string := String dq (escape s ++ String dq "").

(** The fixed text before a value: a quoted field name and a colon. *)
Definition key (name : string) : string := String dq (name ++ String dq ":").

Definition idKey : string := "{" ++ key "id".
Definition descriptionKey : string := "," ++ key "description" ++ String dq "".
Definition creditsKey : string := "," ++ key "credits" ++ String dq "".

Definition encodeID (i : ItemID) : string :=
  match i with
  | IDNil => "null,"
  | IDString s => quote s ++ ","
  | IDNumber n => decimal n ++ ","
  end.

Definition encodeItem (it : AlbumItem) : string :=
  idKey ++ encodeID (ID it)
  ++ key "url" ++ quote (URL it)
  ++ "," ++ key "description" ++ quote (Description it)
  ++ "," ++ key "credits" ++ quote (Credits it)
  ++ "}".

Fixpoint encodeMore (l : list AlbumItem) : string :=
  match l with
  | [] => "]"
  | it :: l' => "," ++ encodeItem it ++ encodeMore l'
  end.

Definition encode (l : list AlbumItem) : string :=
  match l with
  | [] => "[]"
  | it :: l' => "[" ++ encodeItem it ++ encodeMore l'
  end.

Inductive Field : Type := FId | FUrl | FDescription | FCredits.

Inductive Mode : Type :=
| Begin
| Opened
| Lit (rest : string) (next : Mode)
| IdValue
| Number (acc : string)
| Chars (f : Field) (acc : string)
| Escaped (f : Field) (acc : string)
| AfterItem
| Closed.

Record Reader : Type := mkReader {
  mode : Mode;
  curID : ItemID;
  curURL : string;
  curDescription : string;
  items : list AlbumItem        (* latest first *)
}.

Definition goto (m : Mode) (r : Reader) : Reader :=
  {| mode := m; curID := curID r; curURL := curURL r;
     curDescription := curDescription r; items := items r |}.

Definition afterID (i : ItemID) (r : Reader) : Reader :=
  {| mode := Lit (key "url" ++ String dq "") (Chars FUrl "");
     curID := i; curURL := curURL r;
     curDescription := curDescription r; items := items r |}.

(** The closing quote of a string value. *)
Definition closeString (f : Field) (s : string) (r : Reader) : Reader :=
  match f with
  | FId => goto (Lit "," (mode (afterID (IDString s) r))) (afterID (IDString s) r)
  | FUrl =>
      {| mode := Lit descriptionKey (Chars FDescription "");
         curID := curID r; curURL := s;
         curDescription := curDescription r; items := items r |}
  | FDescription =>
      {| mode := Lit creditsKey (Chars FCredits "");
         curID := curID r; curURL := curURL r;
         curDescription := s; items := items r |}
  | FCredits =>
      {| mode := Lit "}" AfterItem;
         curID := curID r; curURL := curURL r;
         curDescription := curDescription r;
         items := mkItem (curID r) (curURL r) (curDescription r) s :: items r |}
  end.

Definition step (r : Reader) (c : ascii) : option Reader :=
  match mode r with
  | Begin =>
      if Ascii.eqb c "[" then Some (goto Opened r)
      else if Ascii.eqb c "n" then Some (goto (Lit "ull" Closed) r)
      else None
  | Opened =>
      if Ascii.eqb c "]" then Some (goto Closed r)
      else if Ascii.eqb c "{" then Some (goto (Lit (key "id") IdValue) r)
      else None
  | Lit EmptyString _ => None
  | Lit (String c' rest) next =>
      if Ascii.eqb c c'
      then Some (goto (if String.eqb rest "" then next else Lit rest next) r)
      else None
  | IdValue =>
      if Ascii.eqb c "n" then Some (goto (Lit "ull," (mode (afterID IDNil r))) (afterID IDNil r))
      else if Ascii.eqb c dq then Some (goto (Chars FId "") r)
      else if Ascii.eqb c "-" || isDigit c then Some (goto (Number (String c "")) r)
      else None
  | Number acc =>
      if Ascii.eqb c ","
      then match NilEmpty.int_of_string acc with
           | Some d => Some (afterID (IDNumber (Z.of_int d)) r)
           | None => None
           end
      else if isDigit c then Some (goto (Number (acc ++ String c "")) r)
      else None
  | Chars f acc =>
      if Ascii.eqb c dq then Some (closeString f acc r)
      else if Ascii.eqb c bs then Some (goto (Escaped f acc) r)
      else Some (goto (Chars f (acc ++ String c "")) r)
  | Escaped f acc =>
      if Ascii.eqb c dq || Ascii.eqb c bs
      then Some (goto (Chars f (acc ++ String c "")) r)
      else None
  | AfterItem =>
      if Ascii.eqb c "]" then Some (goto Closed r)
      else if Ascii.eqb c "," then Some (goto (Lit idKey IdValue) r)
      else None
  | Closed => None
  end.

Fixpoint read (r : Reader) (s : string) : option Reader :=
  match s with
  | EmptyString => Some r
  | String c s' =>
      match step r c with
      | Some r' => read r' s'
      | None => None
      end
  end.

Definition decode (s : string) : option (list AlbumItem) :=
  match read {| mode := Begin; curID := IDNil; curURL := "";
                curDescription := ""; items := [] |} s with
  | Some r => match mode r with
              | Closed => Some (rev (items r))
              | _ => None
              end
  | None => None
  end.

(** The reader once it has read the item [it]. *)
Definition itemRead (it : AlbumItem) (r : Reader) : Reader :=
  {| mode := AfterItem; curID := ID it; curURL := URL it;
     curDescription := Description it; items := it :: items r |}.

(** Only digits. *)
Fixpoint allDigits (s : string) : bool :=
  match s with
  | EmptyString => true
  | String c s' => isDigit c && allDigits s'
  end.

End Compact.

#[export] Instance compactJson : Json := {
  Marshal := Compact.encode;
  MarshalItem := fun it =>
    (Compact.encodeItem it)%string;
  Unmarshal := Compact.decode
}.

(** ** [crypto/sha256] (FIPS 180-4) *)

Module SHA256.

Local Open Scope Z_scope.

Definition word (x : Z) : Z := x mod 2 ^ 32.

Definition rotr (n x : Z) : Z :=
  Z.lor (Z.shiftr x n) (word (Z.shiftl x (32 - n))).

Definition ch (x y z : Z) : Z :=
  Z.lxor (Z.land x y) (Z.land (Z.lxor x (2 ^ 32 - 1)) z).

Definition maj (x y z : Z) : Z :=
  Z.lxor (Z.lxor (Z.land x y) (Z.land x z)) (Z.land y z).

Definition bigSigma0 (x : Z) : Z := Z.lxor (Z.lxor (rotr 2 x) (rotr 13 x)) (rotr 22 x).
Definition bigSigma1 (x : Z) : Z := Z.lxor (Z.lxor (rotr 6 x) (rotr 11 x)) (rotr 25 x).
Definition sigma0 (x : Z) : Z := Z.lxor (Z.lxor (rotr 7 x) (rotr 18 x)) (Z.shiftr x 3).
Definition sigma1 (x : Z) : Z := Z.lxor (Z.lxor (rotr 17 x) (rotr 19 x)) (Z.shiftr x 10).

(** The first sixty-four primes. *)
Definition primes : list Z :=
  [2; 3; 5; 7; 11; 13; 17; 19; 23; 29; 31; 37; 41; 43; 47; 53;
   59; 61; 67; 71; 73; 79; 83; 89; 97; 101; 103; 107; 109; 113; 127; 131;
   137; 139; 149; 151; 157; 163; 167; 173; 179; 181; 191; 193; 197; 199; 211; 223;
   227; 229; 233; 239; 241; 251; 257; 263; 269; 271; 277; 281; 283; 293; 307; 311].

(** The largest [x] below [2 ^ bits] with [x ^ 3 <= n]. *)
Fixpoint cubeRoot (bits : nat) (n x : Z) : Z :=
  match bits with
  | O => x
  | S b =>
      let y := x + 2 ^ Z.of_nat b in
      cubeRoot b n (if y * y * y <=? n then y else x)
  end.

(** The first 32 bits of the fractional part of a square root, of a cube
    root. *)
Definition fracSqrt (p : Z) : Z := word (Z.sqrt (p * 2 ^ 64)).
Definition fracCbrt (p : Z) : Z := word (cubeRoot 36 (p * 2 ^ 96) 0).

Definition initial : list Z := Eval vm_compute in map fracSqrt (firstn 8 primes).
Definition K : list Z := Eval vm_compute in map fracCbrt primes.

Fixpoint bytesOf (s : string) : list Z :=
  match s with
  | EmptyString => []
  | String c s' => Z.of_nat (nat_of_ascii c) :: bytesOf s'
  end.

(** [width] bytes of [x], most significant first. *)
Fixpoint bigEndian (width : nat) (x : Z) : list Z :=
  match width with
  | O => []
  | S w => (Z.shiftr x (8 * Z.of_nat w)) mod 256 :: bigEndian w x
  end.

(** The message, a one bit, zeros up to 56 modulo 64 bytes, the bit length. *)
Definition pad (msg : list Z) : list Z :=
  let len := Z.of_nat (length msg) in
  let zeros := Z.to_nat ((55 - len) mod 64) in
  msg ++ [128] ++ repeat 0 zeros ++ bigEndian 8 (8 * len).

Fixpoint wordsOf (n : nat) (bytes : list Z) : list Z :=
  match n, bytes with
  | S n', a :: b :: c :: d :: rest =>
      (((a * 256 + b) * 256 + c) * 256 + d) :: wordsOf n' rest
  | _, _ => []
  end.

(** The message schedule, latest word first. *)
Fixpoint schedule (n : nat) (w : list Z) : list Z :=
  match n with
  | O => w
  | S n' =>
      let next := word (sigma1 (nth 1 w 0) + nth 6 w 0 + sigma0 (nth 14 w 0) + nth 15 w 0) in
      schedule n' (next :: w)
  end.

Definition round (s : list Z) (kw : Z * Z) : list Z :=
  match s with
  | [a; b; c; d; e; f; g; h] =>
      let t1 := h + bigSigma1 e + ch e f g + fst kw + snd kw in
      let t2 := bigSigma0 a + maj a b c in
      [word (t1 + t2); a; b; c; word (d + t1); e; f; g]
  | _ => s
  end.

Definition block (h : list Z) (bytes : list Z) : list Z :=
  let w := rev (schedule 48 (rev (wordsOf 16 bytes))) in
  let s := fold_left round (combine K w) h in
  map (fun p => word (fst p + snd p)) (combine h s).

Fixpoint blocks (n : nat) (h : list Z) (bytes : list Z) : list Z :=
  match n with
  | O => h
  | S n' => blocks n' (block h (firstn 64 bytes)) (skipn 64 bytes)
  end.

Fixpoint stringOf (bytes : list Z) : string :=
  match bytes with
  | [] => EmptyString
  | b :: bytes' => String (ascii_of_nat (Z.to_nat b)) (stringOf bytes')
  end.

(** [sha256.Sum256] *)
Definition Sum256 (data : string) : string :=
  let padded := pad (bytesOf data) in
  let h := blocks (length padded / 64) initial padded in
  stringOf (flat_map (bigEndian 4) h).

End SHA256.

(** [fmt.Sprintf] with the verb x on bytes: two lower-case digits a byte. *)
Definition hexDigit (n : nat) : ascii :=
  if n <? 10 then ascii_of_nat (48 + n) else ascii_of_nat (87 + n).

Fixpoint hex (s : string) : string :=
  match s with
  | EmptyString => EmptyString
  | String c s' =>
      String (hexDigit (nat_of_ascii c / 16))
        (String (hexDigit (nat_of_ascii c mod 16)) (hex s'))
  end.


(** ** The [/api/upload] handler ([startServer]) *)

Local Open Scope string_scope.

(** [filepath.Ext]: from the last dot of the last element of the path;
    [found] is the suffix at the last dot seen since the last separator. *)
Fixpoint extFrom (path : string) (found : string) : string :=
  match path with
  | EmptyString => found
  | String c rest =>
      if Ascii.eqb c "/" then extFrom rest ""
      else if Ascii.eqb c "." then extFrom rest path
      else extFrom rest found
  end.

Definition Ext (path : string) : string := extFrom path "".

(** A directory: what each name holds. *)
Definition Files : Type := string -> option string.

Definition put (name data : string) (fs : Files) : Files :=
  fun n => if String.eqb n name then Some data else fs n.

Definition remove (name : string) (fs : Files) : Files :=
  fun n => if String.eqb n name then None else fs n.

Record Storage : Type := mkStorage {
  uploads : Files;     (* the local disk, by path *)
  remote : Files       (* the SFTP server, by path *)
}.

Definition putLocal (name data : string) (st : Storage) : Storage :=
  {| uploads := put name data (uploads st); remote := remote st |}.

Definition removeLocal (name : string) (st : Storage) : Storage :=
  {| uploads := remove name (uploads st); remote := remote st |}.

Definition putRemote (name data : string) (st : Storage) : Storage :=
  {| uploads := uploads st; remote := put name data (remote st) |}.

(** The multipart file of a request: its name and the pieces [io.Copy] reads. *)
Record FormFile : Type := mkFormFile {
  Filename : string;
  pieces : list string
}.

Definition contents (f : FormFile) : string := fold_right append "" (pieces f).

Record Request : Type := mkRequest {
  Method : string;
  file_ : option FormFile      (* r.FormFile("file") *)
}.

Record Response : Type := mkResponse {
  status : Z;
  url : option string          (* the body {url: ...} *)
}.

(** What the outside world answers to the calls of the handler. *)
Record UploadEnv : Type := mkUploadEnv {
  UnixNano : Z;                  (* time.Now().UnixNano() *)
  mkdirFails : bool;             (* os.MkdirAll *)
  createFails : bool;            (* os.Create *)
  copyFailsAfter : option nat;   (* io.Copy fails after so many pieces *)
  renameFails : bool             (* os.Rename *)
}.

(** [hasher := sha256.New()]: [Write] takes the bytes, [Sum] is the digest of
    everything written. *)
Record Hasher : Type := mkHasher { written : string }.

Definition hasherWrite (h : Hasher) (p : string) : Hasher :=
  {| written := written h ++ p |}.

Definition hasherSum (h : Hasher) : string := SHA256.Sum256 (written h).

(** [io.Copy(io.MultiWriter(dst, hasher), file)]: every piece goes to the
    file and to the hasher; the flag is false when it stops with an error. *)
Fixpoint Copy (failsAfter : option nat) (ps : list string) (dst : string) (h : Hasher)
  : string * Hasher * bool :=
  match failsAfter with
  | Some O => (dst, h, false)
  | _ =>
      match ps with
      | [] => (dst, h, true)
      | p :: ps' =>
          Copy (option_map Nat.pred failsAfter) ps' (dst ++ p) (hasherWrite h p)
      end
  end.

(** [uploadFileToSFTP] *)
Definition uploadFileToSFTP (E : Env) (localFilePath remoteFileName : string)
    (st : Storage) : option SftpError * Storage :=
  let host := SFTP_HOST E in
  let portStr := SFTP_PORT E in
  let user := SFTP_USER E in
  let password := SFTP_PASSWORD E in
  let keyPath := SFTP_PRIVATE_KEY_PATH E in
  if isEmpty host || isEmpty user || (isEmpty password && isEmpty keyPath)
  then (Some SftpEnvNotSet, st)
  else
    match (if isEmpty portStr then Some 22%Z else Atoi portStr) with
    | None => (Some SftpInvalidPort, st)
    | Some _ =>
        match (if negb (isEmpty password) then SftpNoFault else sftpFault E),
              sftpFault E with
        | FaultKeyRead, _ => (Some SftpKeyUnreadable, st)
        | FaultKeyParse, _ => (Some SftpKeyUnparsable, st)
        | _, FaultDial => (Some SftpConnect, st)
        | _, FaultClient => (Some SftpNewClient, st)
        | _, fault =>
            match uploads st localFilePath with
            | None => (Some SftpOpenLocal, st)
            | Some data =>
                let contentDir := "content" in
                let remoteFilePath := contentDir ++ "/" ++ remoteFileName in
                match fault with
                | FaultCreate => (Some SftpCreate, st)
                | FaultWrite n =>
                    (Some SftpWrite, putRemote remoteFilePath (substring 0 n data) st)
                | _ => (None, putRemote remoteFilePath data st)
                end
            end
        end
    end.

(** [BUNNY_CDN_URL], or the fallback of the handler when it is not set. *)
Definition cdnBase (E : Env) : string :=
  if isEmpty (BUNNY_CDN_URL E) then "https://example.com" else BUNNY_CDN_URL E.

Definition post (f : FormFile) : Request := {| Method := "POST"; file_ := Some f |}.

Definition uploadHandler (E : Env) (U : UploadEnv) (r : Request) (st : Storage)
  : Response * Storage :=
  if String.eqb (Method r) "OPTIONS" then ({| status := 200; url := None |}, st)
  else if negb (String.eqb (Method r) "POST")
  then ({| status := 405; url := None |}, st)
  else
    match file_ r with
    | None => ({| status := 400; url := None |}, st)
    | Some file =>
        let uploadDir := "data/uploads" in
        if mkdirFails U then ({| status := 500; url := None |}, st)
        else
          let fileExt := Ext (Filename file) in
          let tempFilename := "temp-" ++ decimal (UnixNano U) ++ fileExt in
          let filePath := uploadDir ++ "/" ++ tempFilename in
          if createFails U then ({| status := 500; url := None |}, st)
          else
            (* defer os.Remove(filePath), with the path of the temporary file *)
            let tempPath := filePath in
            let hasher := {| written := "" |} in
            match Copy (copyFailsAfter U) (pieces file) "" hasher with
            | (dst, _, false) =>
                ({| status := 500; url := None |},
                 removeLocal tempPath (putLocal filePath dst st))
            | (dst, hasher, true) =>
                let st := putLocal filePath dst st in
                let hashBytes := hasherSum hasher in
                let hashString := hex hashBytes in
                let filename := hashString ++ fileExt in
                let finalPath := uploadDir ++ "/" ++ filename in
                let renamed :=
                  negb (String.eqb finalPath filePath) && negb (renameFails U) in
                let st :=
                  if negb (String.eqb finalPath filePath)
                  then
                    let st := removeLocal finalPath st in
                    if renameFails U then st
                    else putLocal finalPath dst (removeLocal filePath st)
                  else st in
                let filePath := if renamed then finalPath else filePath in
                (* the deferred removals, latest first *)
                let cleanup (st : Storage) :=
                  removeLocal tempPath
                    (if renamed then removeLocal finalPath st else st) in
                match uploadFileToSFTP E filePath filename st with
                | (Some _, st) => ({| status := 500; url := None |}, cleanup st)
                | (None, st) =>
                    let cdnURL := BUNNY_CDN_URL E in
                    let cdnURL := if isEmpty cdnURL then "https://example.com"
                                  else cdnURL in
                    let imageURL := cdnURL ++ "/content/" ++ filename in
                    ({| status := 200; url := Some imageURL |}, cleanup st)
                end
            end
    end.

Local Open Scope list_scope.
Local Open Scope nat_scope.

(** ** A concrete machine

    The compact reader and writer stand for [encoding/json]; the Queue holds
    two items, as in the scenario of the specification. *)

Module Scenario.

Local Open Scope string_scope.

Definition one : AlbumItem :=
  {| ID := IDString "1"; URL := "a"; Description := ""; Credits := "" |}.

Definition two : AlbumItem :=
  {| ID := IDString "2"; URL := "b"; Description := ""; Credits := "" |}.

(** Everything is configured and nothing fails. *)
Definition calm : Env :=
  {| SFTP_HOST := "sftp.example.org";
     SFTP_PORT := "2222";
     SFTP_USER := "dimagram";
     SFTP_PASSWORD := "secret";
     SFTP_PRIVATE_KEY_PATH := "";
     BUNNY_API_KEY := "key";
     BUNNY_CDN_URL := "https://cdn.example.org";
     readFault := fun _ => false;
     writeOutcome := fun _ => WriteOk;
     sftpFault := SftpNoFault;
     httpOutcome := HttpStatus 200 |}.

Definition withSftpFault (f : SftpFault) (E : Env) : Env :=
  {| SFTP_HOST := SFTP_HOST E; SFTP_PORT := SFTP_PORT E; SFTP_USER := SFTP_USER E;
     SFTP_PASSWORD := SFTP_PASSWORD E;
     SFTP_PRIVATE_KEY_PATH := SFTP_PRIVATE_KEY_PATH E;
     BUNNY_API_KEY := BUNNY_API_KEY E; BUNNY_CDN_URL := BUNNY_CDN_URL E;
     readFault := readFault E; writeOutcome := writeOutcome E;
     sftpFault := f; httpOutcome := httpOutcome E |}.

Definition withHttp (h : HttpOutcome) (E : Env) : Env :=
  {| SFTP_HOST := SFTP_HOST E; SFTP_PORT := SFTP_PORT E; SFTP_USER := SFTP_USER E;
     SFTP_PASSWORD := SFTP_PASSWORD E;
     SFTP_PRIVATE_KEY_PATH := SFTP_PRIVATE_KEY_PATH E;
     BUNNY_API_KEY := BUNNY_API_KEY E; BUNNY_CDN_URL := BUNNY_CDN_URL E;
     readFault := readFault E; writeOutcome := writeOutcome E;
     sftpFault := sftpFault E; httpOutcome := h |}.

Definition withWrite (p : Path) (o : WriteOutcome) (E : Env) : Env :=
  {| SFTP_HOST := SFTP_HOST E; SFTP_PORT := SFTP_PORT E; SFTP_USER := SFTP_USER E;
     SFTP_PASSWORD := SFTP_PASSWORD E;
     SFTP_PRIVATE_KEY_PATH := SFTP_PRIVATE_KEY_PATH E;
     BUNNY_API_KEY := BUNNY_API_KEY E; BUNNY_CDN_URL := BUNNY_CDN_URL E;
     readFault := readFault E;
     writeOutcome := fun q => match p, q with
                              | albumPath, albumPath => o
                              | archivePath, archivePath => o
                              | _, _ => writeOutcome E q
                              end;
     sftpFault := sftpFault E; httpOutcome := httpOutcome E |}.

(** Queue [one; two], no [archive.json], no [today.json]. *)
Definition queued : World :=
  {| album := Some (Marshal [one; two]); archive := None; today := None |}.

(** An empty Queue, an empty Archive. *)
Definition nothing : World :=
  {| album := Some (Marshal []); archive := Some (Marshal []); today := None |}.

(** No file at all. *)
Definition noFiles : World :=
  {| album := None; archive := None; today := None |}.

Definition after (p : Proc Error unit) (w : World) : World := now (snd (p (start w))).

Definition emptyStorage : Storage :=
  {| uploads := fun _ => None; remote := fun _ => None |}.

Definition noon : UploadEnv :=
  {| UnixNano := 1700000000000000000; mkdirFails := false; createFails := false;
     copyFailsAfter := None; renameFails := false |}.

Definition later : UploadEnv :=
  {| UnixNano := 1700000000000000123; mkdirFails := false; createFails := false;
     copyFailsAfter := None; renameFails := true |}.

Definition abcJpg : FormFile := {| Filename := "photo.jpg"; pieces := ["abc"] |}.
Definition abcPng : FormFile := {| Filename := "photo.png"; pieces := ["abc"] |}.
Definition abcInPieces : FormFile :=
  {| Filename := "holiday/again.v2.jpg"; pieces := ["a"; ""; "bc"] |}.

Definition abcJpgURL : string :=
  "https://cdn.example.org/content/ba7816bf8f01cfea414140de5dae2223b00361a396177a9cb410ff61f20015ad.jpg".

Definition abcPngURL : string :=
  "https://cdn.example.org/content/ba7816bf8f01cfea414140de5dae2223b00361a396177a9cb410ff61f20015ad.png".

End Scenario.

(** ** The handlers of [/api/album] and [/api/publish] ([startServer]) *)

Inductive Body : Type :=
| NoBody
| Raw (data : string)        (* bytes written as they are *)
| Message (text : string)    (* http.Error with a fixed text *)
| Failure (e : Error)        (* http.Error(w, err.Error(), ...) *)
| StatusOk                   (* the object with status ok *)
| Published.                 (* the object with status ok and the message *)

(** What a handler writes to the log. *)
Inductive Note : Type :=
| FailedToOpenAlbum
| FailedToCreateAlbum
| FailedToWriteAlbum
| PublishFailed (e : Error).

Record Reply : Type := mkReply {
  code : Z;
  body : Body;
  noted : option Note
}.

(** A handler either returns early with a reply or runs to its last line. *)
Definition answer (h : Proc Reply Reply) (r : Run) : Reply * Run :=
  match h r with
  | (inl x, r') => (x, r')
  | (inr x, r') => (x, r')
  end.

(** [os.Stat] *)
Definition Stat (E : Env) (p : Path) : Proc IOError unit :=
  c <- look (file p) ;;
  if readFault E p then fail EIO
  else match c with
       | None => fail ENOENT
       | Some _ => ret tt
       end.

Definition albumHandler (E : Env) (method requestBody : string) : Proc Reply Reply :=
  (* Handle OPTIONS request (preflight) *)
  if String.eqb method "OPTIONS"
  then fail {| code := 200; body := NoBody; noted := None |}
  (* GET request - return the album.json file *)
  else if String.eqb method "GET" then
    err <- attempt (Stat E albumPath) ;;
    match err with
    | inl e => if IsNotExist e
               then fail {| code := 200; body := Raw "{}"; noted := None |}
               else ret tt
    | inr _ => ret tt
    end ;;
    albumFile <- ReadFile E albumPath
                 !! (fun _ => {| code := 500; body := Message "Failed to open album file";
                                 noted := Some FailedToOpenAlbum |}) ;;
    fail {| code := 200; body := Raw albumFile; noted := None |}
  (* POST request - save the album.json file *)
  else if String.eqb method "POST" then
    match writeOutcome E albumPath with
    | WriteErrOpen =>
        fail {| code := 500; body := Message "Failed to create album file";
                noted := Some FailedToCreateAlbum |}
    | WriteErrAfter n =>
        change (store albumPath "") ;;
        change (store albumPath (substring 0 n requestBody)) ;;
        fail {| code := 500; body := Message "Failed to write album data";
                noted := Some FailedToWriteAlbum |}
    | WriteOk =>
        change (store albumPath "") ;;
        change (store albumPath requestBody) ;;
        fail {| code := 200; body := StatusOk; noted := None |}
    end
  else ret {| code := 405; body := Message "Method not allowed"; noted := None |}.

Section Handlers.

Context {J : Json}.

Definition publishHandler (E : Env) (method : string) : Proc Reply Reply :=
  if String.eqb method "OPTIONS"
  then fail {| code := 200; body := NoBody; noted := None |}
  else if negb (String.eqb method "POST")
  then fail {| code := 405; body := Message "Method not allowed"; noted := None |}
  else
    err <- attempt (publishProcess E) ;;
    match err with
    | inl e => fail {| code := 500; body := Failure e; noted := Some (PublishFailed e) |}
    | inr _ => ret {| code := 200; body := Published; noted := None |}
    end.

(** ** Sequences of invocations *)

(** [n] invocations in a row: what each returned, and the state left. *)
Fixpoint invokeTimes (n : nat) (op : Invocation) (E : Env) (w : World)
  : list (Error + unit) * World :=
  match n with
  | O => ([], w)
  | S n' =>
      match invokeTimes n' op E (next op E w) with
      | (rs, w') => (fst (invoke op E (start w)) :: rs, w')
      end
  end.

(** The Archive followed by the Queue: the items in the order they are, or
    will be, published. *)
Definition timeline (w : World) : list AlbumItem := Archive w ++ Queue w.

(** Every outcome but a failure in one of the two writes. *)
Definition notHalfWritten (op : Invocation) (res : Error + unit) : Prop :=
  res <> inl ErrWritingArchive /\ res <> inl ErrWritingAlbum.

End Handlers.

(** ** Names the upload handler uses *)

Local Open Scope string_scope.

Definition contentAddress (f : FormFile) : string :=
  hex (SHA256.Sum256 (contents f)) ++ Ext (Filename f).

Definition tempPathOf (U : UploadEnv) (f : FormFile) : string :=
  "data/uploads" ++ "/" ++ "temp-" ++ decimal (UnixNano U) ++ Ext (Filename f).

Definition finalPathOf (f : FormFile) : string :=
  "data/uploads" ++ "/" ++ contentAddress f.

Definition remotePathOf (f : FormFile) : string := "content/" ++ contentAddress f.

Definition isLowerHex (c : ascii) : bool :=
  ((48 <=? nat_of_ascii c)%nat && (nat_of_ascii c <=? 57)%nat)
  || ((97 <=? nat_of_ascii c)%nat && (nat_of_ascii c <=? 102)%nat).

Fixpoint allChars (p : ascii -> bool) (s : string) : bool :=
  match s with
  | EmptyString => true
  | String c s' => p c && allChars p s'
  end.

Definition notSeparator (c : ascii) : bool := negb (Ascii.eqb c "/").

Local Open Scope list_scope.
Local Open Scope nat_scope.

(** [io.Copy] reaches the end of the file of the form. *)
Definition copyCompletes (U : UploadEnv) (f : FormFile) : bool :=
  match copyFailsAfter U with
  | None => true
  | Some n => length (pieces f) <? n
  end.

(** ** The editor of the Queue ([frontend/src/Album.jsx])

    The editor holds the Queue as an array of items and posts it to
    [/api/album] when it changes.  An array is a list; an index is an
    integer, and -1 is the index of what is not found. *)

(** The operator [===] on the ids of items. *)
Definition strictEq (a b : ItemID) : bool :=
  match a, b with
  | IDNil, IDNil => true
  | IDString s, IDString t => String.eqb s t
  | IDNumber n, IDNumber m => Z.eqb n m
  | _, _ => false
  end.

(** [Array.prototype.findIndex]: the first index at which [p] holds, -1 when
    there is none. *)
Fixpoint findIndexFrom {A : Type} (p : A -> bool) (l : list A) (i : Z) : Z :=
  match l with
  | [] => (-1)%Z
  | x :: l' => if p x then i else findIndexFrom p l' (i + 1)%Z
  end.

Definition findIndex {A : Type} (p : A -> bool) (l : list A) : Z :=
  findIndexFrom p l 0%Z.

(** [Array.prototype.splice(start, deleteCount, ...inserted)]: a negative
    [start] counts from the end, and both numbers are clamped to the array.
    The result is what was removed and the array as it is left. *)
Definition splice {A : Type} (start deleteCount : Z) (inserted : list A) (l : list A)
  : list A * list A :=
  let len := Z.of_nat (length l) in
  let actualStart :=
    if (start <? 0)%Z then Z.max (len + start) 0 else Z.min start len in
  let actualDeleteCount := Z.min (Z.max deleteCount 0) (len - actualStart) in
  (firstn (Z.to_nat actualDeleteCount) (skipn (Z.to_nat actualStart) l),
   firstn (Z.to_nat actualStart) l ++ inserted
     ++ skipn (Z.to_nat (actualStart + actualDeleteCount)) l).

(** [onDragEnd]: the array set with [setAlbumData], and whether
    [props.onAlbumChange] was called.  [draggable] and [droppable] are given
    by their ids, [None] for one that is null. *)
Definition onDragEnd (draggable droppable : option ItemID)
    (currentItems : list AlbumItem) : list AlbumItem * bool :=
  match draggable, droppable with
  | Some draggableId, Some droppableId =>
      let fromIndex := findIndex (fun item => strictEq (ID item) draggableId) currentItems in
      let toIndex := findIndex (fun item => strictEq (ID item) droppableId) currentItems in
      if negb (fromIndex =? toIndex)%Z
      then
        let updatedItems := currentItems in
        let (taken, updatedItems) := splice fromIndex 1 [] updatedItems in
        let (_, updatedItems) := splice toIndex 0 taken updatedItems in
        (updatedItems, true)
      else (currentItems, false)
  | _, _ => (currentItems, false)
  end.

(** [deleteItem] *)
Definition deleteItem (id : ItemID) (currentItems : list AlbumItem) : list AlbumItem :=
  filter (fun item => negb (strictEq (ID item) id)) currentItems.

(** ** More states of the concrete machine *)

Module Cases.

Import Scenario.

Local Open Scope string_scope.

(** Item 1 published, item 2 queued. *)
Definition publishedOne : World :=
  {| album := Some (Marshal [two]);
     archive := Some (Marshal [one]);
     today := Some (MarshalItem one) |}.

(** Both items published. *)
Definition publishedBoth : World :=
  {| album := Some (Marshal []);
     archive := Some (Marshal [one; two]);
     today := Some (MarshalItem two) |}.

(** An [archive.json] that is no JSON. *)
Definition brokenArchive : World :=
  {| album := Some (Marshal [one; two]); archive := Some "oops"; today := None |}.

(** The SSH connection cannot be made. *)
Definition offline : Env := withSftpFault FaultDial calm.

(** The CDN answers 503. *)
Definition unpurged : Env := withHttp (HttpStatus 503) calm.

(** [album.json] cannot be opened for writing. *)
Definition albumLocked : Env := withWrite albumPath WriteErrOpen calm.

Definition three : AlbumItem :=
  {| ID := IDString "3"; URL := "c"; Description := ""; Credits := "" |}.

(** A request that is no upload. *)
Definition getRequest : Request := {| Method := "GET"; file_ := None |}.

(** A file name that climbs out of the directory. *)
Definition climbing : FormFile :=
  {| Filename := "../../srv/today.jpg"; pieces := ["ab"; "c"] |}.

End Cases.
(** * Proofs *)

(** ** The compact reader reads what the compact writer writes *)

Module CompactFacts.
Import Compact.
Local Open Scope string_scope.

Lemma append_empty (s : string) : s ++ "" = s.
Proof. induction s as [|c s IH]; simpl; [reflexivity | now rewrite IH]. Qed.

Lemma append_assoc (a b c : string) : (a ++ b) ++ c = a ++ (b ++ c).
Proof. induction a as [|x a IH]; simpl; [reflexivity | now rewrite IH]. Qed.

Lemma read_append (a b : string) : forall r,
  read r (a ++ b) = match read r a with Some r' => read r' b | None => None end.
Proof.
  induction a as [|c a IH]; intros r; simpl; [reflexivity|].
  destruct (step r c); [apply IH | reflexivity].
Qed.

Lemma read_cons (r : Reader) (c : ascii) (s : string) :
  read r (String c s) = match step r c with Some r' => read r' s | None => None end.
Proof. reflexivity. Qed.

Lemma goto_goto m m' r : goto m (goto m' r) = goto m r.
Proof. reflexivity. Qed.

Lemma goto_mode r : goto (mode r) r = r.
Proof. now destruct r. Qed.

Lemma read_lit (lit : string) (next : Mode) (b : string) : forall r,
  lit <> "" -> mode r = Lit lit next ->
  read r (lit ++ b) = read (goto next r) b.
Proof.
  induction lit as [|c lit IH]; intros r Hne Hm; [congruence|].
  simpl. unfold step. rewrite Hm, Ascii.eqb_refl.
  destruct lit as [|c' lit'].
  - reflexivity.
  - change (String c' lit' =? "")%string with false. cbv iota.
    rewrite IH; [reflexivity | discriminate | reflexivity].
Qed.

Lemma read_chars (s : string) (f : Field) (b : string) : forall acc r,
  mode r = Chars f acc ->
  read r (escape s ++ String dq b) = read (closeString f (acc ++ s) r) b.
Proof.
  induction s as [|c s IH]; intros acc r Hm; simpl.
  - unfold step. rewrite Hm, Ascii.eqb_refl, append_empty. reflexivity.
  - destruct (Ascii.eqb c dq || Ascii.eqb c bs) eqn:Hc; simpl.
    + unfold step at 1. rewrite Hm.
      change (Ascii.eqb bs dq) with false. rewrite Ascii.eqb_refl. cbv iota.
      unfold step at 1. simpl mode. rewrite Hc.
      rewrite IH with (acc := acc ++ String c "") by reflexivity.
      rewrite append_assoc. reflexivity.
    + apply orb_false_elim in Hc as [Hq Hb].
      unfold step at 1. rewrite Hm, Hq, Hb.
      rewrite IH with (acc := acc ++ String c "") by reflexivity.
      rewrite append_assoc. reflexivity.
Qed.

Lemma read_string (s : string) (f : Field) (b : string) (r : Reader) :
  mode r = Chars f "" ->
  read r (escape s ++ String dq b) = read (closeString f s r) b.
Proof. intros Hm. now rewrite read_chars with (f := f) (acc := ""). Qed.

Lemma allDigits_uint (d : Decimal.uint) : allDigits (NilEmpty.string_of_uint d) = true.
Proof. induction d; simpl; auto. Qed.

Lemma digit_is_no_mark (c : ascii) :
  isDigit c = true ->
  Ascii.eqb c "," = false /\ Ascii.eqb c "n" = false /\ Ascii.eqb c dq = false.
Proof.
  destruct c as [[] [] [] [] [] [] [] []]; intros H; try discriminate H;
    repeat split; reflexivity.
Qed.

Lemma read_digits (ds : string) (b : string) : forall acc r,
  allDigits ds = true -> mode r = Number acc ->
  read r (ds ++ String "," b) =
  match NilEmpty.int_of_string (acc ++ ds) with
  | Some d => read (afterID (IDNumber (Z.of_int d)) r) b
  | None => None
  end.
Proof.
  induction ds as [|c ds IH]; intros acc r Hd Hm; simpl.
  - unfold step. rewrite Hm. change (Ascii.eqb "," ",") with true. cbv iota.
    rewrite append_empty. destruct (NilEmpty.int_of_string acc); reflexivity.
  - simpl in Hd. apply andb_true_iff in Hd as [Hc Hd].
    destruct (digit_is_no_mark c Hc) as (Hcomma & _ & _).
    unfold step at 1. rewrite Hm, Hcomma, Hc.
    rewrite IH with (acc := acc ++ String c "") by (assumption || reflexivity).
    rewrite append_assoc. reflexivity.
Qed.

Lemma decimal_shape (n : Z) :
  exists c ds, decimal n = String c ds /\ allDigits ds = true /\
               (Ascii.eqb c "-" || isDigit c = true) /\
               Ascii.eqb c "n" = false /\ Ascii.eqb c dq = false.
Proof.
  unfold decimal. destruct n as [|p|p]; simpl.
  - exists "0"%char, "". repeat split.
  - pose proof (DecimalPos.Unsigned.to_uint_nonnil p) as Hn.
    pose proof (allDigits_uint (Pos.to_uint p)) as Hd.
    destruct (Pos.to_uint p) eqn:E; try congruence; simpl in *;
      (eexists; eexists; split; [reflexivity|]; repeat split; assumption).
  - exists "-"%char, (NilEmpty.string_of_uint (Pos.to_uint p)).
    repeat split. apply allDigits_uint.
Qed.

Lemma read_id (i : ItemID) (b : string) : forall r,
  mode r = IdValue ->
  read r (encodeID i ++ b) = read (afterID i r) b.
Proof.
  intros r Hm. destruct i as [|s|n]; unfold encodeID.
  - change ("null," ++ b) with (String "n" ("ull," ++ b)). rewrite read_cons.
    unfold step at 1. rewrite Hm. change (Ascii.eqb "n" "n") with true. cbv iota.
    rewrite read_lit with (next := mode (afterID IDNil r));
      [|discriminate|reflexivity].
    rewrite goto_goto, goto_mode. reflexivity.
  - unfold quote. simpl append. rewrite !append_assoc. simpl append. rewrite read_cons.
    unfold step at 1. rewrite Hm.
    change (Ascii.eqb dq "n") with false. rewrite Ascii.eqb_refl. cbv iota.
    rewrite read_string with (f := FId) by reflexivity.
    unfold closeString.
    change (String "," b) with ("," ++ b).
    rewrite read_lit with (next := mode (afterID (IDString s) r));
      [|discriminate|reflexivity].
    rewrite goto_goto, goto_mode. reflexivity.
  - destruct (decimal_shape n) as (c & ds & E & Hd & Hc & Hn & Hq).
    pose proof (NilEmpty.isi (Z.to_int n)) as Hisi.
    fold (decimal n) in Hisi. rewrite E in *.
    rewrite append_assoc. simpl append. rewrite read_cons.
    unfold step at 1. rewrite Hm, Hn, Hq, Hc.
    rewrite read_digits with (acc := String c "") by (assumption || reflexivity).
    simpl append. rewrite Hisi, DecimalZ.of_to. reflexivity.
Qed.

Lemma read_fields (it : AlbumItem) (b : string) : forall r,
  mode r = IdValue ->
  read r (encodeID (ID it)
          ++ key "url" ++ quote (URL it)
          ++ "," ++ key "description" ++ quote (Description it)
          ++ "," ++ key "credits" ++ quote (Credits it)
          ++ "}" ++ b) = read (itemRead it r) b.
Proof.
  intros r Hm. rewrite (read_id _ _ r Hm).
  destruct it as [i u d c]. simpl ID; simpl URL; simpl Description; simpl Credits.
  (* url *)
  replace (key "url" ++ quote u ++ "," ++ key "description" ++ quote d
           ++ "," ++ key "credits" ++ quote c ++ "}" ++ b)
    with ((key "url" ++ String dq "")
            ++ escape u ++ String dq (descriptionKey
            ++ escape d ++ String dq (creditsKey
            ++ escape c ++ String dq ("}" ++ b)))).
  2:{ unfold quote, descriptionKey, creditsKey, key. simpl append.
      rewrite !append_assoc. simpl append.
      repeat (rewrite ?append_assoc; simpl append; repeat f_equal). }
  rewrite read_lit with (next := Chars FUrl ""); [|discriminate|reflexivity].
  rewrite read_string with (f := FUrl) by reflexivity.
  rewrite read_lit with (next := Chars FDescription ""); [|discriminate|reflexivity].
  rewrite read_string with (f := FDescription) by reflexivity.
  rewrite read_lit with (next := Chars FCredits ""); [|discriminate|reflexivity].
  rewrite read_string with (f := FCredits) by reflexivity.
  rewrite read_lit with (next := AfterItem); [|discriminate|reflexivity].
  reflexivity.
Qed.

Lemma read_item (it : AlbumItem) (b : string) : forall r,
  mode r = Lit idKey IdValue \/ mode r = Opened ->
  read r (encodeItem it ++ b) = read (itemRead it r) b.
Proof.
  intros r Hm. unfold encodeItem. rewrite !append_assoc.
  destruct Hm as [Hm|Hm].
  - rewrite read_lit with (next := IdValue); [|discriminate|exact Hm].
    now rewrite read_fields.
  - unfold idKey. rewrite append_assoc.
    change ("{" ++ key "id" ++ ?x) with (String "{" (key "id" ++ x)).
    rewrite read_cons. unfold step at 1. rewrite Hm.
    change (Ascii.eqb "{" "]") with false. change (Ascii.eqb "{" "{") with true.
    cbv iota.
    rewrite read_lit with (next := IdValue); [|discriminate|reflexivity].
    now rewrite read_fields.
Qed.

Lemma read_more (l : list AlbumItem) : forall r,
  mode r = AfterItem ->
  exists r', read r (encodeMore l) = Some r' /\ mode r' = Closed /\
             items r' = (rev l ++ items r)%list.
Proof.
  induction l as [|it l IH]; intros r Hm.
  - simpl. unfold step. rewrite Hm. simpl. eexists; repeat split.
  - change (encodeMore (it :: l)) with (String "," (encodeItem it ++ encodeMore l)).
    rewrite read_cons. unfold step at 1. rewrite Hm.
    change (Ascii.eqb "," "]") with false. change (Ascii.eqb "," ",") with true.
    cbv iota. rewrite read_item by (left; reflexivity).
    destruct (IH (itemRead it (goto (Lit idKey IdValue) r)) eq_refl)
      as (r' & Hr & Hc & Hi).
    exists r'. repeat split; try assumption.
    rewrite Hi. simpl. now rewrite <- app_assoc.
Qed.

Lemma decode_encode (l : list AlbumItem) : decode (encode l) = Some l.
Proof.
  unfold decode. destruct l as [|it l].
  - reflexivity.
  - change (encode (it :: l)) with (String "[" (encodeItem it ++ encodeMore l)).
    rewrite read_cons. unfold step at 1. simpl mode. change (Ascii.eqb "[" "[") with true. cbv iota.
    rewrite read_item by (right; reflexivity).
    destruct (read_more l (itemRead it (goto Opened
       {| mode := Begin; curID := IDNil; curURL := "";
          curDescription := ""; items := [] |})) eq_refl) as (r' & Hr & Hc & Hi).
    rewrite Hr, Hc, Hi. simpl. now rewrite rev_app_distr, rev_involutive.
Qed.

Lemma read_closed (r : Reader) (s : string) :
  mode r = Closed -> s <> "" -> read r s = None.
Proof.
  intros Hm Hs. destruct s as [|c s]; [congruence|].
  simpl. unfold step. now rewrite Hm.
Qed.

Lemma cut_append (s : string) : forall n,
  n < String.length s -> exists c t, s = substring 0 n s ++ String c t.
Proof.
  induction s as [|x s IH]; intros n Hn; simpl in Hn; [lia|].
  destruct n as [|n]; simpl.
  - now exists x, s.
  - destruct (IH n) as (c & t & E); [lia|].
    exists c, t. now rewrite <- E.
Qed.

Lemma decode_cut (l : list AlbumItem) (n : nat) :
  n < String.length (encode l) -> decode (substring 0 n (encode l)) = None.
Proof.
  intros Hn. destruct (cut_append _ _ Hn) as (c & t & E).
  pose proof (decode_encode l) as Hfull. rewrite E in Hfull at 1.
  unfold decode in *. rewrite read_append in Hfull.
  destruct (read _ (substring 0 n (encode l))) as [r|]; [|reflexivity].
  destruct (mode r) eqn:Hm; try reflexivity.
  rewrite read_closed in Hfull by (assumption || discriminate). discriminate.
Qed.

End CompactFacts.

Lemma compactJson_laws : JsonLaws compactJson.
Proof.
  split.
  - exact CompactFacts.decode_encode.
  - exact CompactFacts.decode_cut.
Qed.

(** ** Lists *)

Lemma snoc_cases {A : Type} (x : A) (l : list A) :
  exists init b, x :: l = init ++ [b].
Proof.
  destruct (exists_last (l := x :: l)) as (init & b & E); [discriminate|].
  now exists init, b.
Qed.

Lemma nth_snoc {A : Type} (init : list A) (b d : A) :
  nth (length (init ++ [b]) - 1) (init ++ [b]) d = b.
Proof.
  rewrite length_app. simpl length.
  replace (length init + 1 - 1) with (length init) by lia.
  rewrite app_nth2, Nat.sub_diag by lia. reflexivity.
Qed.

Lemma firstn_snoc {A : Type} (init : list A) (b : A) :
  firstn (length (init ++ [b]) - 1) (init ++ [b]) = init.
Proof.
  rewrite length_app. simpl length.
  replace (length init + 1 - 1) with (length init + 0) by lia.
  rewrite firstn_app_2. simpl. apply app_nil_r.
Qed.

Lemma substring_all (s : string) : forall n,
  String.length s <= n -> substring 0 n s = s.
Proof.
  induction s as [|c s IH]; intros n Hn; destruct n as [|n]; simpl in *;
    try reflexivity; try lia.
  rewrite IH by lia. reflexivity.
Qed.

(** ** The two calls that leave the machine *)

Section Calls.

Context {J : Json}.

Lemma uploadToSFTP_cases (E : Env) (item : AlbumItem) (r : Run) :
  (sftpWorks E = true /\
   uploadToSFTP E item r =
   (inr tt, {| now := storeToday (MarshalItem item) (now r);
               past := storeToday "" (now r) :: now r :: past r;
               logged := LogUploaded :: logged r |}))
  \/ (sftpWorks E = false /\ exists e, uploadToSFTP E item r = (inl e, r))
  \/ (sftpWorks E = false /\ exists n,
      uploadToSFTP E item r =
      (inl SftpWrite, {| now := storeToday (substring 0 n (MarshalItem item)) (now r);
                         past := storeToday "" (now r) :: now r :: past r;
                         logged := logged r |})).
Proof.
  unfold sftpWorks, uploadToSFTP, bind, ret, fail, change, say.
  destruct (isEmpty (SFTP_HOST E) || isEmpty (SFTP_USER E)
            || (isEmpty (SFTP_PASSWORD E) && isEmpty (SFTP_PRIVATE_KEY_PATH E)));
    [right; left; split; [reflexivity | eexists; reflexivity]|].
  destruct (isEmpty (SFTP_PORT E)); [|destruct (Atoi (SFTP_PORT E))];
    destruct (isEmpty (SFTP_PASSWORD E)); destruct (sftpFault E); simpl;
    solve [ left; split; reflexivity
          | right; left; split; [reflexivity | eexists; reflexivity]
          | right; right; split; [reflexivity | eexists; reflexivity] ].
Qed.

Lemma invalidateCache_cases (E : Env) (r : Run) :
  (cacheWorks E = true /\
   invalidateCache E r =
   (inr tt, {| now := now r; past := past r; logged := LogInvalidated :: logged r |}))
  \/ (cacheWorks E = false /\ exists e,
      invalidateCache E r = (inl e, r)).
Proof.
  unfold cacheWorks, invalidateCache, fail, say.
  destruct (isEmpty (BUNNY_API_KEY E) || isEmpty (BUNNY_CDN_URL E));
    [right; split; [reflexivity | eexists; reflexivity]|].
  destruct (httpOutcome E) as [| |code]; simpl;
    try (right; split; [reflexivity | eexists; reflexivity]).
  destruct ((code <? 200) || (300 <=? code))%Z; simpl;
    [right; split; [reflexivity | eexists; reflexivity] | left; split; reflexivity].
Qed.

End Calls.

(** ** Taking a run apart *)

Ltac tidy H :=
  cbv [now past logged file negb IsNotExist] in H;
  cbn [album archive today store storeToday] in H.

Ltac unfold_run H :=
  cbv [publishProcess unpublishProcess invoke bind orReturn attempt ReadFile
       WriteFile unmarshal look change say ret fail start
       now past logged file IsNotExist negb] in H;
  cbn [album archive today store storeToday] in H.

Ltac step_env H :=
  match type of H with
  | context [readFault ?E ?p] => destruct (readFault E p) eqn:?
  | context [writeOutcome ?E ?p] => destruct (writeOutcome E p) eqn:?
  | context [match archive ?w with _ => _ end] => destruct (archive w) eqn:?
  | context [match album ?w with _ => _ end] => destruct (album w) eqn:?
  | context [match Unmarshal ?s with _ => _ end] => destruct (Unmarshal s) eqn:?
  end; tidy H.

Ltac step_upload H :=
  match type of H with
  | context [uploadToSFTP ?E ?i ?r] =>
      let Hu := fresh "Hu" in
      destruct (uploadToSFTP_cases E i r) as [[? Hu]|[[? [? Hu]]|[? [? Hu]]]];
      rewrite Hu in H; clear Hu; tidy H
  end.

Ltac step_cache H :=
  match type of H with
  | context [invalidateCache ?E ?r] =>
      let Hc := fresh "Hc" in
      destruct (invalidateCache_cases E r) as [[? Hc]|[? [? Hc]]];
      rewrite Hc in H; clear Hc; tidy H
  end.

Ltac run_all H :=
  repeat (first [step_upload H | step_cache H | step_env H]).

Ltac done_run H := inversion H; subst; clear H.

Section Lifecycle.

Context {J : Json}.

Lemma persisted_whole (L : JsonLaws J) (l : list AlbumItem) :
  persisted (Some (Marshal l)) = l.
Proof. unfold persisted, load. now rewrite (unmarshal_marshal J L). Qed.

Lemma persisted_cut (L : JsonLaws J) (l : list AlbumItem) (n : nat) :
  persisted (Some (substring 0 n (Marshal l))) = [] \/
  persisted (Some (substring 0 n (Marshal l))) = l.
Proof.
  destruct (Nat.lt_ge_cases n (String.length (Marshal l))) as [Hn|Hn].
  - left. unfold persisted, load. now rewrite (unmarshal_cut J L).
  - right. rewrite substring_all by exact Hn. now apply persisted_whole.
Qed.

(** A PUBLISH that returns nil: where it started and where it ended. *)
Lemma publish_success_inv (E : Env) (w : World) (r' : Run) :
  publishProcess E (start w) = (inr tt, r') ->
  exists data item rest arch,
    album w = Some data /\ Unmarshal data = Some (item :: rest) /\
    load (archive w) = Some arch /\
    now r' = {| album := Some (Marshal rest);
                archive := Some (Marshal (arch ++ [item]));
                today := Some (MarshalItem item) |}.
Proof.
  intros H. unfold_run H.
  destruct (readFault E albumPath); [discriminate|].
  destruct (album w) as [data|] eqn:Ha; [|discriminate].
  destruct (Unmarshal data) as [[|item rest]|] eqn:Hd; try discriminate.
  run_all H; try discriminate; done_run H.
  all: eexists data, item, rest, _; unfold load;
    repeat match goal with Hx : archive _ = _ |- _ => rewrite Hx end;
    repeat split; try eassumption; reflexivity.
Qed.


(** An UNPUBLISH that returns: where it started and where it ended. *)
Lemma unpublish_success_inv (E : Env) (w : World) (r' : Run) :
  unpublishProcess E (start w) = (inr tt, r') ->
  exists data arch item queue,
    archive w = Some data /\ Unmarshal data = Some (arch ++ [item]) /\
    load (album w) = Some queue /\
    album (now r') = Some (Marshal (item :: queue)) /\
    archive (now r') = Some (Marshal arch) /\
    ((arch = [] /\ forall p, In p (points r') -> today p = today w)
     \/ (exists init b, arch = init ++ [b] /\
                        today (now r') = Some (MarshalItem b))).
Proof.
  intros H. unfold_run H.
  destruct (readFault E archivePath); [discriminate|].
  destruct (archive w) as [data|] eqn:Ha; [|discriminate].
  destruct (Unmarshal data) as [[|x l]|] eqn:Hd; try discriminate.
  destruct (snoc_cases x l) as (arch & item & El).
  rewrite El in *.
  rewrite firstn_snoc, nth_snoc in H. clear El x l.
  exists data, arch, item.
  destruct arch as [|y l].
  - run_all H; try discriminate; done_run H.
    all: eexists; unfold load, points;
      repeat match goal with Hx : album _ = _ |- _ => rewrite Hx end;
      cbn [now past album archive today store];
      repeat split; try eassumption; try reflexivity.
    all: left; split; [reflexivity|];
      intros p Hp; cbn in Hp; intuition (subst; reflexivity).
  - destruct (snoc_cases y l) as (init & b & El).
    rewrite El in *. rewrite !nth_snoc in H. clear El y l.
    run_all H; try discriminate; done_run H.
    all: eexists; unfold load;
      repeat match goal with Hx : album _ = _ |- _ => rewrite Hx end;
      cbn [now past album archive today store];
      repeat split; try eassumption; try reflexivity.
    all: right; exists init, b; split; reflexivity.
Qed.

(** With nothing failing, PUBLISH goes through. *)
Lemma publish_runs (E : Env) (w : World) data item rest arch :
  album w = Some data -> Unmarshal data = Some (item :: rest) ->
  load (archive w) = Some arch ->
  sftpWorks E = true -> diskWorks E ->
  exists r',
    publishProcess E (start w) = (inr tt, r') /\
    now r' = {| album := Some (Marshal rest);
                archive := Some (Marshal (arch ++ [item]));
                today := Some (MarshalItem item) |} /\
    (cacheWorks E = false -> exists e, In (LogCacheWarning e) (logged r')).
Proof.
  intros Ha Hd Harch Hs Hdisk.
  destruct (Hdisk albumPath) as [Hr1 Hw1], (Hdisk archivePath) as [Hr2 Hw2].
  destruct (publishProcess E (start w)) as [res r'] eqn:H. exists r'.
  unfold_run H.
  rewrite Hr1, Hr2, Hw1, Hw2, Ha in H; tidy H; rewrite Hd in H; tidy H.
  unfold load in Harch.
  run_all H; try congruence; done_run H.
  all: injection Harch as <-; repeat split;
    intros; try congruence; eexists; cbn; eauto.
Qed.

(** With nothing failing, UNPUBLISH goes through. *)
Lemma unpublish_runs (E : Env) (w : World) data arch item queue :
  archive w = Some data -> Unmarshal data = Some (arch ++ [item]) ->
  load (album w) = Some queue ->
  (arch <> [] -> sftpWorks E = true) -> diskWorks E ->
  exists r',
    unpublishProcess E (start w) = (inr tt, r') /\
    album (now r') = Some (Marshal (item :: queue)) /\
    archive (now r') = Some (Marshal arch).
Proof.
  intros Ha Hd Hq Hs Hdisk.
  destruct (Hdisk albumPath) as [Hr1 Hw1], (Hdisk archivePath) as [Hr2 Hw2].
  destruct (unpublishProcess E (start w)) as [res r'] eqn:H. exists r'.
  unfold_run H.
  rewrite Hr1, Hr2, Hw1, Hw2, Ha in H; tidy H; rewrite Hd in H; tidy H.
  unfold load in Hq.
  destruct (arch ++ [item]) as [|x l] eqn:El; [now destruct arch|].
  rewrite <- El in *. rewrite firstn_snoc, nth_snoc in H.
  destruct arch as [|y l'].
  - run_all H; try congruence; done_run H.
    all: injection Hq as <-; repeat split.
  - specialize (Hs ltac:(discriminate)).
    run_all H; try congruence; done_run H.
    all: injection Hq as <-; repeat split.
Qed.

End Lifecycle.

(** * The claims *)

Section Claims.

Context {J : Json}.

Lemma back_snoc (init : list AlbumItem) (b : AlbumItem) : back (init ++ [b]) = Some b.
Proof.
  unfold back. rewrite length_app. simpl length.
  replace (length init + 1 - 1) with (length init) by lia.
  rewrite nth_error_app2, Nat.sub_diag by lia. reflexivity.
Qed.

Lemma Queue_of (w : World) data l :
  album w = Some data -> Unmarshal data = Some l -> Queue w = l.
Proof. unfold Queue, persisted, load. now intros -> ->. Qed.

Lemma Archive_of (w : World) l :
  load (archive w) = Some l -> Archive w = l.
Proof. unfold Archive, persisted. now intros ->. Qed.

Lemma Queue_of_load (w : World) l :
  load (album w) = Some l -> Queue w = l.
Proof. unfold Queue, persisted. now intros ->. Qed.

(** C1. A PUBLISH that succeeds takes the item at the front of the Queue,
    leaves the rest of the Queue in its order, puts the item at the back of
    the Archive behind the items that were there, so that the Queue is one
    item shorter and the Archive one item longer, and leaves in [today.json]
    the serialization of the new back of the Archive. *)
Theorem publish_moves_front (L : JsonLaws J) (E : Env) (w : World) (r' : Run) :
  publishProcess E (start w) = (inr tt, r') ->
  exists item,
    front (Queue w) = Some item /\
    Queue w = item :: Queue (now r') /\
    Archive (now r') = Archive w ++ [item] /\
    length (Queue (now r')) = length (Queue w) - 1 /\
    length (Archive (now r')) = length (Archive w) + 1 /\
    back (Archive (now r')) = Some item /\
    today (now r') = Some (MarshalItem item).
Proof.
  intros H.
  destruct (publish_success_inv E w r' H) as (data & item & rest & arch & Ha & Hd & Hl & Hn).
  exists item. rewrite Hn.
  rewrite (Queue_of w data _ Ha Hd), (Archive_of w _ Hl).
  unfold Queue, Archive. cbn [album archive today].
  rewrite !(persisted_whole L).
  repeat split.
  - simpl. lia.
  - rewrite length_app. reflexivity.
  - apply back_snoc.
Qed.

(** C2. PUBLISH on an empty Queue and UNPUBLISH on an empty Archive fail
    and change nothing: the run ends where it started, with the same files
    and the same pointer.  When the file is there, is read, and holds no
    item, the error is the one for an empty collection. *)
Theorem empty_collection_is_refused (E : Env) (w : World) :
  (Queue w = [] -> exists e, publishProcess E (start w) = (inl e, start w)) /\
  (forall data, album w = Some data -> Unmarshal data = Some [] ->
     readFault E albumPath = false ->
     publishProcess E (start w) = (inl ErrNoItemsInAlbum, start w)) /\
  (Archive w = [] -> exists e, unpublishProcess E (start w) = (inl e, start w)) /\
  (forall data, archive w = Some data -> Unmarshal data = Some [] ->
     readFault E archivePath = false ->
     unpublishProcess E (start w) = (inl ErrNoItemsInArchive, start w)).
Proof.
  unfold Queue, Archive, persisted, load.
  cbv [publishProcess unpublishProcess bind orReturn ReadFile unmarshal look
       ret fail start now file].
  repeat split.
  - intros HQ. destruct (readFault E albumPath); [eexists; reflexivity|].
    destruct (album w) as [data|]; [|eexists; reflexivity].
    destruct (Unmarshal data) as [[|x l]|]; try (eexists; reflexivity).
    discriminate.
  - intros data -> Hd ->. now rewrite Hd.
  - intros HA. destruct (readFault E archivePath); [eexists; reflexivity|].
    destruct (archive w) as [data|]; [|eexists; reflexivity].
    destruct (Unmarshal data) as [[|x l]|]; try (eexists; reflexivity).
    discriminate.
  - intros data -> Hd ->. now rewrite Hd.
Qed.

(** C3. When the upload of the front item fails, PUBLISH returns the upload
    error, and at no point of the run was [album.json] or [archive.json]
    anything else than at the start. *)
Theorem upload_failure_changes_no_file (E : Env) (w : World) data item rest :
  album w = Some data -> Unmarshal data = Some (item :: rest) ->
  readFault E albumPath = false ->
  sftpWorks E = false ->
  exists e r',
    publishProcess E (start w) = (inl (ErrUploading e), r') /\
    forall p, In p (points r') -> album p = album w /\ archive p = archive w.
Proof.
  intros Ha Hd Hr Hs.
  destruct (publishProcess E (start w)) as [res r'] eqn:H.
  unfold_run H. rewrite Hr, Ha in H; tidy H; rewrite Hd in H; tidy H.
  step_upload H; try congruence; done_run H.
  all: eexists; eexists; split; [reflexivity|].
  all: unfold points; cbn [now past]; intros p Hp; cbn in Hp;
    intuition (subst; reflexivity).
Qed.

(** C4. PUBLISH and then UNPUBLISH, both succeeding: the Queue and the
    Archive hold what they held before, in the same order, the item at the
    front of the Queue again. *)
Theorem unpublish_undoes_publish (L : JsonLaws J) (E1 E2 : Env) (w : World) (r1 r2 : Run) :
  publishProcess E1 (start w) = (inr tt, r1) ->
  unpublishProcess E2 (start (now r1)) = (inr tt, r2) ->
  Queue (now r2) = Queue w /\ Archive (now r2) = Archive w /\
  front (Queue (now r2)) = front (Queue w).
Proof.
  intros H1 H2.
  destruct (publish_success_inv E1 w r1 H1)
    as (data & item & rest & arch & Ha & Hd & Hl & Hn).
  destruct (unpublish_success_inv E2 (now r1) r2 H2)
    as (data' & arch' & item' & queue' & Ha' & Hd' & Hl' & Hq2 & Ha2 & _).
  rewrite Hn in Ha', Hl'. cbn [album archive load] in Ha', Hl'.
  injection Ha' as <-.
  rewrite (unmarshal_marshal J L) in Hd', Hl'.
  injection Hl' as <-. injection Hd' as Hd'.
  apply app_inj_tail in Hd' as [<- <-].
  rewrite (Queue_of w data _ Ha Hd), (Archive_of w _ Hl).
  unfold Queue, Archive. rewrite Hq2, Ha2, !(persisted_whole L).
  repeat split.
Qed.

(** C5. An UNPUBLISH that succeeds takes the item at the back of the Archive
    and puts it at the front of the Queue; when items remain in the Archive,
    [today.json] holds the serialization of its new back; when none remains,
    [today.json] is at no point of the run anything else than at the start. *)
Theorem unpublish_moves_back (L : JsonLaws J) (E : Env) (w : World) (r' : Run) :
  unpublishProcess E (start w) = (inr tt, r') ->
  exists item,
    back (Archive w) = Some item /\
    Archive w = Archive (now r') ++ [item] /\
    Queue (now r') = item :: Queue w /\
    match back (Archive (now r')) with
    | Some b => today (now r') = Some (MarshalItem b)
    | None => Archive (now r') = [] /\
              forall p, In p (points r') -> today p = today w
    end.
Proof.
  intros H.
  destruct (unpublish_success_inv E w r' H)
    as (data & arch & item & queue & Ha & Hd & Hl & Hq' & Ha' & Ht).
  exists item.
  assert (HA : Archive w = arch ++ [item])
    by (apply Archive_of; unfold load; now rewrite Ha).
  rewrite HA, (Queue_of_load w _ Hl).
  unfold Queue, Archive. rewrite Hq', Ha', !(persisted_whole L).
  repeat split; [apply back_snoc|].
  destruct Ht as [[-> Ht]|(init & b & -> & Ht)].
  - cbn. split; [reflexivity | exact Ht].
  - now rewrite back_snoc.
Qed.

(** C6. When only the purge of the CDN fails, PUBLISH still reports success:
    the failure is logged as a warning, the item has moved from the Queue to
    the Archive and [today.json] holds it. *)
Theorem cache_failure_is_advisory (L : JsonLaws J) (E : Env) (w : World)
    data item rest arch :
  album w = Some data -> Unmarshal data = Some (item :: rest) ->
  load (archive w) = Some arch ->
  sftpWorks E = true -> diskWorks E ->
  cacheWorks E = false ->
  exists r' e,
    publishProcess E (start w) = (inr tt, r') /\
    In (LogCacheWarning e) (logged r') /\
    Queue w = item :: Queue (now r') /\
    Archive (now r') = Archive w ++ [item] /\
    today (now r') = Some (MarshalItem item).
Proof.
  intros Ha Hd Hl Hs Hdisk Hc.
  destruct (publish_runs E w data item rest arch Ha Hd Hl Hs Hdisk)
    as (r' & Hrun & Hn & Hlog).
  destruct (Hlog Hc) as (e & He).
  exists r', e. rewrite Hn.
  rewrite (Queue_of w data _ Ha Hd), (Archive_of w _ Hl).
  unfold Queue, Archive. cbn [album archive today].
  rewrite !(persisted_whole L). repeat split; assumption.
Qed.

End Claims.

Section Persistence.

Context {J : Json}.

Lemma in_Queue_untouched (w p : World) data item rest :
  album w = Some data -> Unmarshal data = Some (item :: rest) ->
  album p = album w -> In item (Queue p).
Proof.
  intros Ha Hd Hp. unfold Queue, persisted, load. rewrite Hp, Ha, Hd. now left.
Qed.

(** C10. PUBLISH writes [archive.json], with the item appended, before it
    writes [album.json]: at every point of every run of PUBLISH - whatever
    fails, the last write included - either [album.json] is still what it was
    at the start or [archive.json] already holds the Archive with the item
    appended; so the item is in the persisted Queue or in the persisted
    Archive at every point, those after the upload included. *)
Theorem published_item_is_never_lost (L : JsonLaws J) (E : Env) (w : World)
    data item rest (res : Error + unit) (r' : Run) :
  album w = Some data -> Unmarshal data = Some (item :: rest) ->
  publishProcess E (start w) = (res, r') ->
  forall p, In p (points r') ->
    (album p = album w \/ Archive p = Archive w ++ [item]) /\
    (In item (Queue p) \/ In item (Archive p)).
Proof.
  intros Ha Hd H.
  assert (Horder : forall p, In p (points r') ->
             album p = album w \/ Archive p = Archive w ++ [item]).
  { unfold_run H.
    destruct (readFault E albumPath);
      [done_run H; intros p [<-|[]]; now left|].
    rewrite Ha in H; tidy H; rewrite Hd in H; tidy H.
    run_all H; done_run H.
    all: unfold points; cbn [now past].
    all: intros p Hp; cbn [In] in Hp.
    all: repeat match goal with
           | Hp : _ \/ _ |- _ => destruct Hp as [<-|Hp]
           | Hp : False |- _ => destruct Hp
           end.
    all: cbn [album archive today store storeToday].
    all: try (left; reflexivity).
    all: right; unfold Archive at 2; unfold persisted, load;
      repeat match goal with Hx : archive _ = _ |- _ => rewrite Hx end;
      repeat match goal with Hx : Unmarshal _ = _ |- _ => rewrite Hx end;
      unfold Archive; cbn [archive]; apply (persisted_whole L). }
  intros p Hp. split; [exact (Horder p Hp)|].
  destruct (Horder p Hp) as [Hq|Hq].
  - left. eapply in_Queue_untouched; eassumption.
  - right. rewrite Hq. apply in_or_app. right. now left.
Qed.

End Persistence.

Section Uniqueness.

Context {J : Json}.

Lemma uniq_published (item : AlbumItem) (rest a : list AlbumItem) :
  uniq (item :: rest) a -> uniq rest (a ++ [item]).
Proof.
  unfold uniq. rewrite map_app, app_assoc. simpl.
  apply Permutation_NoDup, Permutation_cons_append.
Qed.

Lemma uniq_unpublished (item : AlbumItem) (q a : list AlbumItem) :
  uniq q (a ++ [item]) -> uniq (item :: q) a.
Proof.
  unfold uniq. rewrite map_app, app_assoc. simpl.
  apply Permutation_NoDup, Permutation_sym, Permutation_cons_append.
Qed.

Lemma uniq_tail (x : AlbumItem) (q a : list AlbumItem) : uniq (x :: q) a -> uniq q a.
Proof. unfold uniq. simpl. intros H. now apply NoDup_cons_iff in H. Qed.

Lemma uniq_no_queue (q a : list AlbumItem) : uniq q a -> uniq [] a.
Proof. unfold uniq. simpl. apply NoDup_app_remove_l. Qed.

Lemma uniq_no_archive (q a : list AlbumItem) : uniq q a -> uniq q [].
Proof. unfold uniq. simpl. rewrite app_nil_r. apply NoDup_app_remove_r. Qed.

Lemma publish_keeps_ids_unique (L : JsonLaws J) (E : Env) (w : World) res r' :
  IdUnique w ->
  publishProcess E (start w) = (res, r') ->
  res <> inl ErrWritingArchive -> res <> inl ErrWritingAlbum ->
  IdUnique (now r').
Proof.
  intros HU H Hn1 Hn2.
  destruct res as [e|[]].
  - (* a failure: the files are those of the start *)
    assert (album (now r') = album w /\ archive (now r') = archive w) as [Ea Eb].
    { unfold_run H.
      destruct (readFault E albumPath); [done_run H; split; reflexivity|].
      destruct (album w) as [data|] eqn:Ha; [|done_run H; split; cbn; congruence].
      destruct (Unmarshal data) as [[|item rest]|];
        try (done_run H; split; cbn; congruence).
      run_all H; done_run H; try congruence; split; cbn; congruence. }
    unfold IdUnique, Queue, Archive in *. now rewrite Ea, Eb.
  - destruct (publish_success_inv E w r' H)
      as (data & item & rest & arch & Ha & Hd & Hl & Hn).
    change (uniq (Queue w) (Archive w)) in HU.
    change (uniq (Queue (now r')) (Archive (now r'))).
    rewrite (Queue_of w data _ Ha Hd), (Archive_of w _ Hl) in HU.
    rewrite Hn. unfold Queue, Archive. cbn [album archive].
    rewrite !(persisted_whole L). now apply uniq_published.
Qed.

Ltac files_leaf data arch item :=
  cbn [now album archive store storeToday];
  first
    [ left; split; congruence
    | right; exists data, arch, item; eexists;
      split; [reflexivity|]; split; [eassumption|];
      split; [unfold load; first [eassumption | reflexivity]|];
      first
        [ left; split; [congruence | eexists; reflexivity]
        | right; split; [reflexivity|];
          first [ left; congruence
                | right; left; reflexivity
                | right; right; eexists; reflexivity ] ] ].

(** What a run of UNPUBLISH can leave in the two files, whatever fails:
    nothing written; or [archive.json] written, whole or cut short, and
    [album.json] as it was; or [archive.json] written whole and [album.json]
    as it was, written whole, or cut short. *)
Lemma unpublish_files (E : Env) (w : World) res r' :
  unpublishProcess E (start w) = (res, r') ->
  (album (now r') = album w /\ archive (now r') = archive w)
  \/ exists data arch item queue,
       archive w = Some data /\ Unmarshal data = Some (arch ++ [item]) /\
       load (album w) = Some queue /\
       ((album (now r') = album w /\
         exists n, archive (now r') = Some (substring 0 n (Marshal arch)))
        \/ (archive (now r') = Some (Marshal arch) /\
            (album (now r') = album w
             \/ album (now r') = Some (Marshal (item :: queue))
             \/ exists n, album (now r')
                          = Some (substring 0 n (Marshal (item :: queue)))))).
Proof.
  intros H. unfold_run H.
  destruct (readFault E archivePath); [done_run H; now left|].
  destruct (archive w) as [data|] eqn:Ha; [|done_run H; left; split; cbn; congruence].
  destruct (Unmarshal data) as [[|x l]|] eqn:Hd; tidy H;
    try (done_run H; left; split; cbn; congruence).
  destruct (snoc_cases x l) as (arch & item & El).
  rewrite El in *. rewrite firstn_snoc, nth_snoc in H. clear El x l.
  destruct arch as [|y l].
  - run_all H; done_run H; files_leaf data (@nil AlbumItem) item.
  - destruct (snoc_cases y l) as (init & b & El).
    tidy H. rewrite El in H, Hd. rewrite !nth_snoc in H.
    run_all H; done_run H; files_leaf data (init ++ [b]) item.
Qed.

Lemma unpublish_keeps_ids_unique (L : JsonLaws J) (E : Env) (w : World) res r' :
  IdUnique w ->
  unpublishProcess E (start w) = (res, r') ->
  IdUnique (now r').
Proof.
  intros HU H.
  change (uniq (Queue w) (Archive w)) in HU.
  change (uniq (Queue (now r')) (Archive (now r'))).
  destruct (unpublish_files E w res r' H)
    as [[Ea Eb]|(data & arch & item & queue & Ha & Hd & Hl & Hw)].
  - unfold Queue, Archive in *. now rewrite Ea, Eb.
  - assert (HA : Archive w = arch ++ [item])
      by (apply Archive_of; unfold load; now rewrite Ha).
    rewrite HA, (Queue_of_load w _ Hl) in HU.
    pose proof (uniq_unpublished _ _ _ HU) as Hfull.
    pose proof (uniq_tail _ _ _ Hfull) as Hless.
    destruct Hw as [[Ea [n Eb]]|[Eb [Ea|[Ea|[n Ea]]]]].
    + unfold Queue at 1, Archive. rewrite Ea, Eb.
      fold (Queue w). rewrite (Queue_of_load w _ Hl).
      destruct (persisted_cut L arch n) as [-> | ->];
        [eapply uniq_no_archive|]; eassumption.
    + unfold Queue at 1, Archive. rewrite Ea, Eb, (persisted_whole L).
      fold (Queue w). now rewrite (Queue_of_load w _ Hl).
    + unfold Queue, Archive. now rewrite Ea, Eb, !(persisted_whole L).
    + unfold Queue, Archive. rewrite Ea, Eb, (persisted_whole L).
      destruct (persisted_cut L (item :: queue) n) as [-> | ->];
        [eapply uniq_no_queue|]; eassumption.
Qed.

Lemma reach_step (allowed : Invocation -> Error + unit -> Prop)
    (w0 w : World) (op : Invocation) (E : Env) :
  Reachable allowed w0 w ->
  allowed op (fst (invoke op E (start w))) ->
  Reachable allowed w0 (next op E w).
Proof.
  intros HR Hok.
  eapply ReachInvoke; [exact HR | apply surjective_pairing | exact Hok].
Qed.

(** C8, as amended.  From a state where no id occurs twice in the Queue
    and the Archive taken together, every state reached by invocations of
    PUBLISH and UNPUBLISH - those that succeed, those that fail, and the
    UNPUBLISH that fail between or in their two writes - is such a state
    again, as long as no PUBLISH fails while it writes [archive.json] or
    [album.json]. *)
Theorem ids_stay_unique (L : JsonLaws J) (w0 w : World) :
  IdUnique w0 -> Reachable notHalfPublished w0 w -> IdUnique w.
Proof.
  intros H0 HR. induction HR as [|w op E res r' HR IH Hrun Hok]; [exact H0|].
  destruct op; cbn [invoke] in Hrun.
  - destruct (Hok eq_refl) as [Hn1 Hn2].
    eapply publish_keeps_ids_unique; eassumption.
  - eapply unpublish_keeps_ids_unique; eassumption.
Qed.

End Uniqueness.

Section Loading.

Context {J : Json}.

(** C7, as amended.  A file that does not exist stands for an empty
    collection only where an operation loads the collection it adds to: the
    Archive in PUBLISH, the Queue in UNPUBLISH.  Where an operation loads the
    collection it takes its item from - the Queue in PUBLISH, the Archive in
    UNPUBLISH - a file that does not exist is a read error, and nothing
    changes.  Content that does not parse is a parse error in each of the
    four places. *)
Theorem missing_file_is_empty_where_items_are_added (L : JsonLaws J) (E : Env) (w : World) :
  (album w = None ->
   exists e, publishProcess E (start w) = (inl (ErrReadingAlbum e), start w)) /\
  (archive w = None ->
   exists e, unpublishProcess E (start w) = (inl (ErrReadingArchive e), start w)) /\
  (forall data item rest,
     album w = Some data -> Unmarshal data = Some (item :: rest) ->
     archive w = None -> sftpWorks E = true -> diskWorks E ->
     exists r', publishProcess E (start w) = (inr tt, r') /\
                Archive (now r') = [item]) /\
  (forall data arch item,
     archive w = Some data -> Unmarshal data = Some (arch ++ [item]) ->
     album w = None -> (arch <> [] -> sftpWorks E = true) -> diskWorks E ->
     exists r', unpublishProcess E (start w) = (inr tt, r') /\
                Queue (now r') = [item]) /\
  (forall data,
     album w = Some data -> Unmarshal data = None -> readFault E albumPath = false ->
     publishProcess E (start w) = (inl ErrParsingAlbum, start w)) /\
  (forall data,
     archive w = Some data -> Unmarshal data = None -> readFault E archivePath = false ->
     unpublishProcess E (start w) = (inl ErrParsingArchive, start w)) /\
  (forall data item rest bad,
     album w = Some data -> Unmarshal data = Some (item :: rest) ->
     archive w = Some bad -> Unmarshal bad = None ->
     sftpWorks E = true -> diskWorks E ->
     exists r', publishProcess E (start w) = (inl ErrParsingArchive, r')) /\
  (forall data arch item bad,
     archive w = Some data -> Unmarshal data = Some (arch ++ [item]) ->
     album w = Some bad -> Unmarshal bad = None -> diskWorks E ->
     exists r', unpublishProcess E (start w) = (inl ErrParsingAlbum, r')).
Proof.
  repeat split.
  - intros Ha.
    cbv [publishProcess bind orReturn ReadFile look fail start now file].
    rewrite Ha. destruct (readFault E albumPath); eexists; reflexivity.
  - intros Ha.
    cbv [unpublishProcess bind orReturn ReadFile look fail start now file].
    rewrite Ha. destruct (readFault E archivePath); eexists; reflexivity.
  - intros data item rest Ha Hd Hb Hs Hdisk.
    destruct (publish_runs E w data item rest [] Ha Hd) as (r' & Hrun & Hn & _);
      try assumption; [unfold load; now rewrite Hb|].
    exists r'. split; [exact Hrun|].
    rewrite Hn. unfold Archive. cbn [archive]. now rewrite (persisted_whole L).
  - intros data arch item Ha Hd Hb Hs Hdisk.
    destruct (unpublish_runs E w data arch item [] Ha Hd) as (r' & Hrun & Hq & _);
      try assumption; [unfold load; now rewrite Hb|].
    exists r'. split; [exact Hrun|].
    unfold Queue. now rewrite Hq, (persisted_whole L).
  - intros data Ha Hd Hr.
    cbv [publishProcess bind orReturn ReadFile unmarshal look ret fail start now file].
    now rewrite Ha, Hr, Hd.
  - intros data Ha Hd Hr.
    cbv [unpublishProcess bind orReturn ReadFile unmarshal look ret fail start now file].
    now rewrite Ha, Hr, Hd.
  - intros data item rest bad Ha Hd Hb Hbad Hs Hdisk.
    destruct (Hdisk albumPath) as [Hr1 Hw1], (Hdisk archivePath) as [Hr2 Hw2].
    destruct (publishProcess E (start w)) as [res r'] eqn:H. exists r'.
    unfold_run H.
    rewrite Hr1, Hr2, Hw1, Hw2, Ha in H; tidy H; rewrite Hd in H; tidy H.
    run_all H; try congruence; done_run H; reflexivity.
  - intros data arch item bad Ha Hd Hb Hbad Hdisk.
    destruct (Hdisk albumPath) as [Hr1 Hw1], (Hdisk archivePath) as [Hr2 Hw2].
    destruct (unpublishProcess E (start w)) as [res r'] eqn:H. exists r'.
    unfold_run H.
    rewrite Hr1, Hr2, Hw1, Hw2, Ha in H; tidy H; rewrite Hd in H; tidy H.
    destruct (arch ++ [item]) as [|x l] eqn:El; [now destruct arch|].
    tidy H. rewrite Hb in H. tidy H. rewrite Hbad in H. tidy H.
    done_run H; reflexivity.
Qed.

End Loading.

(** ** Ingestion *)

Section Ingestion.

Local Open Scope string_scope.

Lemma Copy_done (ps : list string) : forall failsAfter dst h dst' h',
  Copy failsAfter ps dst h = (dst', h', true) ->
  dst' = dst ++ fold_right append "" ps /\
  written h' = written h ++ fold_right append "" ps.
Proof.
  induction ps as [|p ps IH]; intros fa dst h dst' h' H.
  - destruct fa as [[|k]|]; simpl in H; try discriminate;
      injection H as <- <-; simpl; now rewrite !CompactFacts.append_empty.
  - destruct fa as [[|k]|]; simpl in H; try discriminate;
      apply IH in H as [-> ->]; simpl;
      now rewrite !CompactFacts.append_assoc.
Qed.

Lemma uploadFileToSFTP_done (E : Env) (path name : string) (st st' : Storage) :
  uploadFileToSFTP E path name st = (None, st') ->
  exists data, uploads st path = Some data /\
               st' = putRemote ("content/" ++ name) data st.
Proof.
  unfold uploadFileToSFTP.
  destruct (isEmpty (SFTP_HOST E) || isEmpty (SFTP_USER E)
            || (isEmpty (SFTP_PASSWORD E) && isEmpty (SFTP_PRIVATE_KEY_PATH E)));
    [discriminate|].
  destruct (if isEmpty (SFTP_PORT E) then Some 22%Z else Atoi (SFTP_PORT E));
    [|discriminate].
  destruct (uploads st path) as [data|];
    destruct (negb (isEmpty (SFTP_PASSWORD E))); destruct (sftpFault E);
    intros H; try discriminate H; injection H as <-;
    exists data; split; reflexivity.
Qed.

(** An upload that is answered with a URL: the URL and the remote file. *)
Lemma upload_success_inv (E : Env) (U : UploadEnv) (f : FormFile) (st : Storage) (u : string) :
  fst (uploadHandler E U (post f) st) = {| status := 200; url := Some u |} ->
  u = cdnBase E ++ "/content/" ++ hex (SHA256.Sum256 (contents f)) ++ Ext (Filename f) /\
  remote (snd (uploadHandler E U (post f) st))
    ("content/" ++ hex (SHA256.Sum256 (contents f)) ++ Ext (Filename f))
  = Some (contents f).
Proof.
  unfold uploadHandler, post. cbn [Method file_].
  change ("POST" =? "OPTIONS") with false. change ("POST" =? "POST") with true.
  cbv iota. cbn [negb].
  destruct (mkdirFails U); [discriminate|].
  destruct (createFails U); [discriminate|].
  destruct (Copy (copyFailsAfter U) (pieces f) "" {| written := "" |})
    as [[dst h] [|]] eqn:HC; [|discriminate].
  apply Copy_done in HC as [-> Hh]. simpl in Hh.
  unfold hasherSum. rewrite Hh.
  change ("" ++ fold_right append "" (pieces f)) with (contents f).
  fold (contents f).
  set (fileExt := Ext (Filename f)).
  set (filename := hex (SHA256.Sum256 (contents f)) ++ fileExt).
  set (temp := "data/uploads" ++ "/" ++ "temp-" ++ decimal (UnixNano U) ++ fileExt).
  set (final := "data/uploads" ++ "/" ++ filename).
  match goal with
  | |- context [uploadFileToSFTP E ?p ?n ?s] =>
      destruct (uploadFileToSFTP E p n s) as [[e|] st'] eqn:HS
  end; [discriminate|].
  apply uploadFileToSFTP_done in HS as (data & Hdata & ->).
  cbn [fst snd status url]. intros Hu. injection Hu as <-.
  split; [reflexivity|].
  assert (data = contents f) as ->.
  { revert Hdata. destruct (final =? temp) eqn:Eft; cbn [negb andb].
    - unfold putLocal, put. cbn [uploads]. rewrite String.eqb_refl. congruence.
    - destruct (renameFails U); cbn [negb].
      + unfold removeLocal, putLocal, remove, put. cbn [uploads].
        rewrite String.eqb_sym, Eft, String.eqb_refl. congruence.
      + unfold removeLocal, putLocal, remove, put. cbn [uploads].
        rewrite String.eqb_refl. congruence. }
  destruct (negb (final =? temp) && negb (renameFails U));
    unfold removeLocal, putRemote, put; cbn [remote];
    now rewrite String.eqb_refl.
Qed.

(** C9, as amended.  An upload that is answered is answered with the
    address made of the lower-case hexadecimal SHA-256 digest of the bytes
    uploaded, followed by the extension of the file name, and the file stored
    remotely under that address holds those bytes.  Two uploads of the same
    bytes under file names with the same extension - whatever the clock, the
    pieces the bytes arrive in, what is stored already and the environment -
    get the same address. *)
Theorem same_bytes_same_address (E1 E2 : Env) (U1 U2 : UploadEnv)
    (f1 f2 : FormFile) (st1 st2 : Storage) (u1 u2 : string) :
  fst (uploadHandler E1 U1 (post f1) st1) = {| status := 200; url := Some u1 |} ->
  fst (uploadHandler E2 U2 (post f2) st2) = {| status := 200; url := Some u2 |} ->
  contents f1 = contents f2 ->
  Ext (Filename f1) = Ext (Filename f2) ->
  exists address,
    address = hex (SHA256.Sum256 (contents f1)) ++ Ext (Filename f1) /\
    u1 = cdnBase E1 ++ "/content/" ++ address /\
    u2 = cdnBase E2 ++ "/content/" ++ address /\
    remote (snd (uploadHandler E1 U1 (post f1) st1)) ("content/" ++ address)
    = Some (contents f1) /\
    remote (snd (uploadHandler E2 U2 (post f2) st2)) ("content/" ++ address)
    = Some (contents f1).
Proof.
  intros H1 H2 Hsame Hext.
  apply upload_success_inv in H1 as [-> R1].
  apply upload_success_inv in H2 as [-> R2].
  exists (hex (SHA256.Sum256 (contents f1)) ++ Ext (Filename f1)).
  rewrite <- Hsame, <- Hext in *. repeat split; assumption.
Qed.

End Ingestion.


(** * The claims on the concrete machine *)

Module Witnesses.

Import Scenario.

(** The scenario of the specification: PUBLISH, PUBLISH, UNPUBLISH. *)
Example scenario_publish :
  fst (publishProcess calm (start queued)) = inr tt /\
  after (publishProcess calm) queued =
  {| album := Some (Marshal [two]);
     archive := Some (Marshal [one]);
     today := Some (MarshalItem one) |} /\
  logged (snd (publishProcess calm (start queued))) =
  [LogPublished; LogInvalidated; LogUploaded; LogPublishing (IDString "1") "a"].
Proof. vm_compute. repeat split. Qed.

Example scenario_publish_twice :
  let w := after (publishProcess calm) (after (publishProcess calm) queued) in
  Queue w = [] /\ Archive w = [one; two] /\ today w = Some (MarshalItem two).
Proof. vm_compute. repeat split. Qed.

Example scenario_unpublish :
  let w := after (unpublishProcess calm)
             (after (publishProcess calm) (after (publishProcess calm) queued)) in
  Queue w = [two] /\ Archive w = [one] /\ today w = Some (MarshalItem one).
Proof. vm_compute. repeat split. Qed.

Example sha256_of_abc :
  hex (SHA256.Sum256 "abc")
  = "ba7816bf8f01cfea414140de5dae2223b00361a396177a9cb410ff61f20015ad"%string.
Proof. vm_compute. reflexivity. Qed.

Example sha256_of_nothing :
  hex (SHA256.Sum256 "")
  = "e3b0c44298fc1c149afbf4c8996fb92427ae41e4649b934ca495991b7852b855"%string.
Proof. vm_compute. reflexivity. Qed.

Example sha256_of_two_blocks :
  hex (SHA256.Sum256 "abcdbcdecdefdefgefghfghighijhijkijkljklmklmnlmnomnopnopq")
  = "248d6a61d20638b8e5c026930c3e6039a33ce45964ff2167f6ecedd419db06c1"%string.
Proof. vm_compute. reflexivity. Qed.

Example extensions :
  Ext "photo.jpg" = ".jpg"%string /\ Ext "archive.tar.gz" = ".gz"%string /\
  Ext "photo" = ""%string /\ Ext "v1.2/photo" = ""%string.
Proof. repeat split. Qed.

Example ports :
  Atoi "2222" = Some 2222%Z /\ Atoi "+22" = Some 22%Z /\ Atoi "" = None /\
  Atoi "22a" = None /\ Atoi "9223372036854775808" = None.
Proof. repeat split. Qed.

(** [os.WriteFile] can fail when everything is written (at the close): a
    PUBLISH that stops there leaves item 1 in both files as well. *)
Example failed_close_duplicates_an_id :
  fst (publishProcess (withWrite archivePath (WriteErrAfter 1000) calm) (start queued))
  = inl ErrWritingArchive /\
  Queue (after (publishProcess (withWrite archivePath (WriteErrAfter 1000) calm)) queued)
  = [one; two] /\
  Archive (after (publishProcess (withWrite archivePath (WriteErrAfter 1000) calm)) queued)
  = [one].
Proof. vm_compute. repeat split. Qed.

Lemma calm_disk : diskWorks calm.
Proof. intros p. split; reflexivity. Qed.

(** C1 on the scenario: PUBLISH moves item 1. *)
Lemma publish_moves_front_witness :
  publishProcess calm (start queued)
  = (inr tt, snd (publishProcess calm (start queued))) /\
  exists item,
    front (Queue queued) = Some item /\
    Queue queued = item :: Queue (after (publishProcess calm) queued) /\
    Archive (after (publishProcess calm) queued) = Archive queued ++ [item] /\
    length (Queue (after (publishProcess calm) queued)) = length (Queue queued) - 1 /\
    length (Archive (after (publishProcess calm) queued))
    = length (Archive queued) + 1 /\
    back (Archive (after (publishProcess calm) queued)) = Some item /\
    today (after (publishProcess calm) queued) = Some (MarshalItem item).
Proof.
  split; [vm_compute; reflexivity|].
  apply (publish_moves_front compactJson_laws calm queued).
  vm_compute. reflexivity.
Defined.

(** C3 on the scenario: the SSH connection fails. *)
Lemma upload_failure_changes_no_file_witness :
  sftpWorks (withSftpFault FaultDial calm) = false /\
  exists e r',
    publishProcess (withSftpFault FaultDial calm) (start queued)
    = (inl (ErrUploading e), r') /\
    forall p, In p (points r') -> album p = album queued /\ archive p = archive queued.
Proof.
  split; [reflexivity|].
  apply (upload_failure_changes_no_file (withSftpFault FaultDial calm) queued
           (Marshal [one; two]) one [two]).
  - reflexivity.
  - vm_compute. reflexivity.
  - reflexivity.
  - reflexivity.
Defined.

(** C4 on the scenario. *)
Lemma unpublish_undoes_publish_witness :
  Queue (after (unpublishProcess calm) (after (publishProcess calm) queued))
  = Queue queued /\
  Archive (after (unpublishProcess calm) (after (publishProcess calm) queued))
  = Archive queued /\
  front (Queue (after (unpublishProcess calm) (after (publishProcess calm) queued)))
  = front (Queue queued).
Proof.
  apply (unpublish_undoes_publish compactJson_laws calm calm queued
           (snd (publishProcess calm (start queued)))
           (snd (unpublishProcess calm (start (after (publishProcess calm) queued))))).
  - vm_compute. reflexivity.
  - vm_compute. reflexivity.
Defined.

(** C5 on the scenario: UNPUBLISH after two PUBLISH. *)
Lemma unpublish_moves_back_witness :
  let w := after (publishProcess calm) (after (publishProcess calm) queued) in
  exists item,
    back (Archive w) = Some item /\
    Archive w = Archive (after (unpublishProcess calm) w) ++ [item] /\
    Queue (after (unpublishProcess calm) w) = item :: Queue w /\
    match back (Archive (after (unpublishProcess calm) w)) with
    | Some b => today (after (unpublishProcess calm) w) = Some (MarshalItem b)
    | None => Archive (after (unpublishProcess calm) w) = [] /\
              forall p, In p (points (snd (unpublishProcess calm (start w)))) ->
                        today p = today w
    end.
Proof.
  intros w.
  apply (unpublish_moves_back compactJson_laws calm w).
  vm_compute. reflexivity.
Defined.

(** C6 on the scenario: the CDN answers 503. *)
Lemma cache_failure_is_advisory_witness :
  cacheWorks (withHttp (HttpStatus 503) calm) = false /\
  exists r' e,
    publishProcess (withHttp (HttpStatus 503) calm) (start queued) = (inr tt, r') /\
    In (LogCacheWarning e) (logged r') /\
    Queue queued = one :: Queue (now r') /\
    Archive (now r') = Archive queued ++ [one] /\
    today (now r') = Some (MarshalItem one).
Proof.
  split; [reflexivity|].
  apply (cache_failure_is_advisory compactJson_laws (withHttp (HttpStatus 503) calm)
           queued (Marshal [one; two]) one [two] []).
  - reflexivity.
  - vm_compute. reflexivity.
  - reflexivity.
  - reflexivity.
  - intros p. split; reflexivity.
  - reflexivity.
Defined.

(** C10 on the scenario: the last write fails; the world PUBLISH stops in. *)
Lemma published_item_is_never_lost_witness :
  fst (publishProcess (withWrite albumPath WriteErrOpen calm) (start queued))
  = inl ErrWritingAlbum /\
  (album (after (publishProcess (withWrite albumPath WriteErrOpen calm)) queued)
   = album queued \/
   Archive (after (publishProcess (withWrite albumPath WriteErrOpen calm)) queued)
   = Archive queued ++ [one]) /\
  (In one (Queue (after (publishProcess (withWrite albumPath WriteErrOpen calm)) queued))
   \/ In one (Archive (after (publishProcess (withWrite albumPath WriteErrOpen calm))
                         queued))).
Proof.
  split; [vm_compute; reflexivity|].
  refine (published_item_is_never_lost compactJson_laws
            (withWrite albumPath WriteErrOpen calm) queued
            (Marshal [one; two]) one [two]
            (fst (publishProcess (withWrite albumPath WriteErrOpen calm) (start queued)))
            (snd (publishProcess (withWrite albumPath WriteErrOpen calm) (start queued)))
            eq_refl _ _
            (after (publishProcess (withWrite albumPath WriteErrOpen calm)) queued)
            (or_introl eq_refl)).
  - vm_compute. reflexivity.
  - apply surjective_pairing.
Defined.

(** C7, as stated, fails: with no [album.json] PUBLISH does not find an
    empty Queue (the error would be the one for an empty collection), it
    fails to read; and so does UNPUBLISH with no [archive.json]. *)
Lemma missing_file_is_a_read_error :
  publishProcess calm (start noFiles) = (inl (ErrReadingAlbum ENOENT), start noFiles) /\
  publishProcess calm (start nothing) = (inl ErrNoItemsInAlbum, start nothing) /\
  unpublishProcess calm (start noFiles) = (inl (ErrReadingArchive ENOENT), start noFiles) /\
  unpublishProcess calm (start nothing) = (inl ErrNoItemsInArchive, start nothing).
Proof. repeat split. Qed.

(** C7 as amended, on the scenario: no [archive.json] is an empty Archive
    for PUBLISH; no [album.json] is a read error for PUBLISH. *)
Lemma missing_file_is_empty_where_items_are_added_witness :
  (exists r', publishProcess calm (start queued) = (inr tt, r') /\
              Archive (now r') = [one]) /\
  (exists e, publishProcess calm (start noFiles)
             = (inl (ErrReadingAlbum e), start noFiles)).
Proof.
  split.
  - destruct (missing_file_is_empty_where_items_are_added compactJson_laws calm queued)
      as (_ & _ & H & _).
    apply (H (Marshal [one; two]) one [two]).
    + reflexivity.
    + vm_compute. reflexivity.
    + reflexivity.
    + reflexivity.
    + intros p. split; reflexivity.
  - destruct (missing_file_is_empty_where_items_are_added compactJson_laws calm noFiles)
      as (H & _).
    apply H. reflexivity.
Defined.

(** C8, as stated, fails: PUBLISH writes the Archive, then fails to open
    [album.json]; item 1 is in both collections. *)
Lemma failed_publish_duplicates_an_id :
  ~ (forall w0 w : World,
       IdUnique w0 -> Reachable anyOutcome w0 w -> IdUnique w).
Proof.
  intros H.
  specialize (H queued (next PUBLISH (withWrite albumPath WriteErrOpen calm) queued)).
  assert (HU : IdUnique queued).
  { vm_compute. repeat constructor; simpl; intuition discriminate. }
  specialize (H HU (reach_step anyOutcome queued queued PUBLISH _
                      (ReachStart anyOutcome queued) I)).
  vm_compute in H.
  inversion H as [|x l Hnotin Hrest]. apply Hnotin. right. left. reflexivity.
Qed.

(** C8 as amended, on the scenario: two PUBLISH and an UNPUBLISH whose second
    write fails. *)
Lemma ids_stay_unique_witness :
  IdUnique queued /\
  IdUnique (next UNPUBLISH (withWrite albumPath WriteErrOpen calm)
              (next PUBLISH calm (next PUBLISH calm queued))).
Proof.
  assert (HU : IdUnique queued).
  { vm_compute. repeat constructor; simpl; intuition discriminate. }
  split; [exact HU|].
  apply (ids_stay_unique compactJson_laws queued); [exact HU|].
  apply reach_step; [apply reach_step; [apply reach_step; [apply ReachStart|]|]|].
  - vm_compute. intros _. split; discriminate.
  - vm_compute. intros _. split; discriminate.
  - intros [=].
Defined.

(** C2 on the scenario: an empty Queue, an empty Archive. *)
Lemma empty_collection_is_refused_witness :
  publishProcess calm (start nothing) = (inl ErrNoItemsInAlbum, start nothing) /\
  unpublishProcess calm (start nothing) = (inl ErrNoItemsInArchive, start nothing).
Proof.
  destruct (empty_collection_is_refused calm nothing) as (_ & Hp & _ & Hu).
  split.
  - apply (Hp (Marshal [])); reflexivity.
  - apply (Hu (Marshal [])); reflexivity.
Defined.

(** C9, as stated, fails: the same bytes uploaded as [photo.jpg] and as
    [photo.png] get two addresses. *)
Lemma same_bytes_other_extension_other_address :
  contents abcJpg = contents abcPng /\
  fst (uploadHandler calm noon (post abcJpg) emptyStorage)
  = {| status := 200; url := Some abcJpgURL |} /\
  fst (uploadHandler calm noon (post abcPng) emptyStorage)
  = {| status := 200; url := Some abcPngURL |} /\
  abcJpgURL <> abcPngURL.
Proof.
  repeat split; try (vm_compute; reflexivity).
  apply String.eqb_neq. vm_compute. reflexivity.
Qed.

(** C9 as amended, on two uploads of the same bytes. *)
Lemma same_bytes_same_address_witness :
  exists address,
    address = (hex (SHA256.Sum256 (contents abcJpg)) ++ Ext (Filename abcJpg))%string /\
    abcJpgURL = (cdnBase calm ++ "/content/" ++ address)%string /\
    abcJpgURL = (cdnBase calm ++ "/content/" ++ address)%string /\
    remote (snd (uploadHandler calm noon (post abcJpg) emptyStorage))
      ("content/" ++ address)%string = Some (contents abcJpg) /\
    remote (snd (uploadHandler calm later (post abcInPieces)
                   (snd (uploadHandler calm noon (post abcJpg) emptyStorage))))
      ("content/" ++ address)%string = Some (contents abcJpg).
Proof.
  apply (same_bytes_same_address calm calm noon later abcJpg abcInPieces
           emptyStorage (snd (uploadHandler calm noon (post abcJpg) emptyStorage))
           abcJpgURL abcJpgURL).
  - vm_compute. reflexivity.
  - vm_compute. reflexivity.
  - reflexivity.
  - reflexivity.
Defined.

End Witnesses.

(** * More of the lifecycle *)

Section Sequences.

Context {J : Json}.

(** A failure that is not a failure of one of the two writes left the two
    files as they were. *)
Lemma publish_failure_files (E : Env) (w : World) e r' :
  publishProcess E (start w) = (inl e, r') ->
  e <> ErrWritingArchive -> e <> ErrWritingAlbum ->
  album (now r') = album w /\ archive (now r') = archive w.
Proof.
  intros H Hn1 Hn2. unfold_run H.
  destruct (readFault E albumPath); [done_run H; split; reflexivity|].
  destruct (album w) as [data|] eqn:Ha; [|done_run H; split; cbn; congruence].
  destruct (Unmarshal data) as [[|item rest]|];
    try (done_run H; split; cbn; congruence).
  run_all H; done_run H; try congruence; split; cbn; congruence.
Qed.

Lemma unpublish_failure_files (E : Env) (w : World) e r' :
  unpublishProcess E (start w) = (inl e, r') ->
  e <> ErrWritingArchive -> e <> ErrWritingAlbum ->
  album (now r') = album w /\ archive (now r') = archive w.
Proof.
  intros H Hn1 Hn2. unfold_run H.
  destruct (readFault E archivePath); [done_run H; split; reflexivity|].
  destruct (archive w) as [data|] eqn:Ha; [|done_run H; split; cbn; congruence].
  destruct (Unmarshal data) as [[|x l]|] eqn:Hd; tidy H;
    try (done_run H; split; cbn; congruence).
  destruct (snoc_cases x l) as (arch & item & El).
  rewrite El in *. rewrite firstn_snoc, nth_snoc in H. clear El x l.
  destruct arch as [|y l].
  - run_all H; done_run H; try congruence; split; cbn; congruence.
  - destruct (snoc_cases y l) as (init & b & El).
    tidy H. rewrite El in H, Hd. rewrite !nth_snoc in H.
    run_all H; done_run H; try congruence; split; cbn; congruence.
Qed.

Lemma timeline_step (L : JsonLaws J) (op : Invocation) (E : Env) (w : World) res r' :
  invoke op E (start w) = (res, r') ->
  notHalfWritten op res ->
  timeline (now r') = timeline w.
Proof.
  intros H [Hn1 Hn2]. unfold timeline.
  destruct res as [e|[]].
  - assert (album (now r') = album w /\ archive (now r') = archive w) as [Ea Eb].
    { destruct op; cbn [invoke] in H;
        [eapply publish_failure_files | eapply unpublish_failure_files];
        try eassumption; congruence. }
    unfold Queue, Archive. now rewrite Ea, Eb.
  - destruct op; cbn [invoke] in H.
    + destruct (publish_success_inv E w r' H)
        as (data & item & rest & arch & Ha & Hd & Hl & Hn).
      rewrite (Queue_of w data _ Ha Hd), (Archive_of w _ Hl), Hn.
      unfold Queue, Archive. cbn [album archive].
      rewrite !(persisted_whole L), <- app_assoc. reflexivity.
    + destruct (unpublish_success_inv E w r' H)
        as (data & arch & item & queue & Ha & Hd & Hl & Hq' & Ha' & _).
      assert (HA : Archive w = arch ++ [item])
        by (apply Archive_of; unfold load; now rewrite Ha).
      rewrite HA, (Queue_of_load w _ Hl).
      unfold Queue, Archive. rewrite Hq', Ha', !(persisted_whole L), <- app_assoc.
      reflexivity.
Qed.

(** X1. The Archive followed by the Queue is one sequence that PUBLISH and
    UNPUBLISH never change: they only move the place where the Archive ends
    and the Queue begins.  It holds in every state reached by invocations that
    succeed or that fail before the writes. *)
Theorem timeline_is_kept (L : JsonLaws J) (w0 w : World) :
  Reachable notHalfWritten w0 w -> timeline w = timeline w0.
Proof.
  induction 1 as [|w op E res r' HR IH Hrun Hok]; [reflexivity|].
  rewrite <- IH. eapply timeline_step; eassumption.
Qed.

Lemma list_eq_dec_nil {A : Type} (l : list A) : l = [] \/ l <> [].
Proof. destruct l; [now left | right; discriminate]. Qed.

(** As many PUBLISH as the Queue has items, with nothing failing. *)
Lemma publish_all (L : JsonLaws J) (E : Env) (q : list AlbumItem) :
  sftpWorks E = true -> diskWorks E ->
  forall (w : World) data arch,
    album w = Some data -> Unmarshal data = Some q ->
    load (archive w) = Some arch ->
    fst (invokeTimes (length q) PUBLISH E w) = repeat (inr tt) (length q) /\
    load (album (snd (invokeTimes (length q) PUBLISH E w))) = Some [] /\
    album (snd (invokeTimes (length q) PUBLISH E w)) <> None /\
    load (archive (snd (invokeTimes (length q) PUBLISH E w))) = Some (arch ++ q) /\
    (q <> [] -> archive (snd (invokeTimes (length q) PUBLISH E w)) <> None) /\
    (forall last, back q = Some last ->
       today (snd (invokeTimes (length q) PUBLISH E w)) = Some (MarshalItem last)).
Proof.
  intros Hs Hdisk. induction q as [|item rest IH]; intros w data arch Ha Hd Hl.
  - cbn. rewrite app_nil_r, Ha. cbn. repeat split; try assumption; try discriminate.
    congruence.
  - destruct (publish_runs E w data item rest arch Ha Hd Hl Hs Hdisk)
      as (r' & Hrun & Hn & _).
    cbn [length invokeTimes]. unfold next. cbn [invoke]. rewrite Hrun. cbn [snd fst].
    specialize (IH (now r') (Marshal rest) (arch ++ [item])).
    rewrite Hn in IH. cbn [album archive load] in IH.
    rewrite !(unmarshal_marshal J L) in IH.
    specialize (IH eq_refl eq_refl eq_refl) as (Hres & Halb & Hsome & Harch & Hsome' & Hlast).
    rewrite Hn.
    destruct (invokeTimes (length rest) PUBLISH E _) as [rs w'] eqn:Hit.
    cbn [fst snd] in *. subst rs.
    repeat split; try assumption.
    + rewrite Harch, <- app_assoc. reflexivity.
    + intros _. destruct rest as [|x rest'].
      * cbn in Hit. injection Hit as <-. discriminate.
      * apply Hsome'. discriminate.
    + intros last Hb. destruct rest as [|x rest'].
      * cbn in Hb. injection Hb as <-. cbn in Hit. injection Hit as <-. reflexivity.
      * apply Hlast. unfold back in *. cbn [length] in *.
        replace (S (S (length rest')) - 1) with (S (length rest' )) in Hb by lia.
        replace (S (length rest') - 1) with (length rest') by lia.
        exact Hb.
Qed.

(** As many UNPUBLISH as items were archived, with nothing failing. *)
Lemma unpublish_all (L : JsonLaws J) (E : Env) (q1 : list AlbumItem) :
  sftpWorks E = true -> diskWorks E ->
  forall (w : World) data arch q2,
    archive w = Some data -> Unmarshal data = Some (arch ++ q1) ->
    load (album w) = Some q2 ->
    fst (invokeTimes (length q1) UNPUBLISH E w) = repeat (inr tt) (length q1) /\
    load (album (snd (invokeTimes (length q1) UNPUBLISH E w))) = Some (q1 ++ q2) /\
    load (archive (snd (invokeTimes (length q1) UNPUBLISH E w))) = Some arch.
Proof.
  intros Hs Hdisk. induction q1 as [|x q1 IH] using rev_ind;
    intros w data arch q2 Ha Hd Hl.
  - cbn. rewrite app_nil_r in Hd. unfold load at 2. rewrite Ha. auto.
  - rewrite app_assoc in Hd.
    destruct (unpublish_runs E w data (arch ++ q1) x q2 Ha Hd Hl (fun _ => Hs) Hdisk)
      as (r' & Hrun & Hq & Harch).
    rewrite length_app, Nat.add_1_r.
    cbn [invokeTimes]. unfold next. cbn [invoke]. rewrite Hrun. cbn [snd fst].
    specialize (IH (now r') (Marshal (arch ++ q1)) arch (x :: q2) Harch).
    rewrite Hq in IH. cbn [load] in IH. rewrite !(unmarshal_marshal J L) in IH.
    specialize (IH eq_refl eq_refl) as (Hres & Halb & Harc).
    destruct (invokeTimes (length q1) UNPUBLISH E _) as [rs w'] eqn:Hit.
    cbn [fst snd] in *. subst rs.
    repeat split; try assumption.
    rewrite Halb, <- app_assoc. reflexivity.
Qed.

(** X2. With nothing failing, as many PUBLISH as the Queue has items all
    succeed, empty the Queue and put its items behind those of the Archive in
    the order they had; [today.json] then holds the last of them, and one
    more PUBLISH is refused for want of items, changing nothing. *)
Theorem publishing_the_whole_queue (L : JsonLaws J) (E : Env) (w : World) data q arch :
  sftpWorks E = true -> diskWorks E ->
  album w = Some data -> Unmarshal data = Some q ->
  load (archive w) = Some arch ->
  fst (invokeTimes (length q) PUBLISH E w) = repeat (inr tt) (length q) /\
  Queue (snd (invokeTimes (length q) PUBLISH E w)) = [] /\
  Archive (snd (invokeTimes (length q) PUBLISH E w)) = arch ++ q /\
  (forall last, back q = Some last ->
     today (snd (invokeTimes (length q) PUBLISH E w)) = Some (MarshalItem last)) /\
  publishProcess E (start (snd (invokeTimes (length q) PUBLISH E w)))
  = (inl ErrNoItemsInAlbum, start (snd (invokeTimes (length q) PUBLISH E w))).
Proof.
  intros Hs Hdisk Ha Hd Hl.
  destruct (publish_all L E q Hs Hdisk w data arch Ha Hd Hl)
    as (Hres & Halb & Hsome & Harch & _ & Hlast).
  repeat split; try assumption.
  - now apply Queue_of_load.
  - now apply Archive_of.
  - destruct (album (snd (invokeTimes (length q) PUBLISH E w))) as [d|] eqn:Hd';
      [|congruence].
    cbn [load] in Halb. destruct (Hdisk albumPath) as [Hr _].
    cbv [publishProcess bind orReturn ReadFile unmarshal look ret fail start now file].
    now rewrite Hd', Hr, Halb.
Qed.

(** X3. With nothing failing, publishing the whole Queue and then running as
    many UNPUBLISH puts every item back: the Queue and the Archive hold what
    they held at the start, in the same order. *)
Theorem unpublishing_everything_published (L : JsonLaws J) (E : Env) (w : World)
    data q arch :
  sftpWorks E = true -> diskWorks E ->
  album w = Some data -> Unmarshal data = Some q ->
  load (archive w) = Some arch ->
  fst (invokeTimes (length q) UNPUBLISH E (snd (invokeTimes (length q) PUBLISH E w)))
  = repeat (inr tt) (length q) /\
  Queue (snd (invokeTimes (length q) UNPUBLISH E
                (snd (invokeTimes (length q) PUBLISH E w)))) = Queue w /\
  Archive (snd (invokeTimes (length q) UNPUBLISH E
                  (snd (invokeTimes (length q) PUBLISH E w)))) = Archive w.
Proof.
  intros Hs Hdisk Ha Hd Hl.
  destruct (list_eq_dec_nil q) as [->|Hq]; [cbn; repeat split|].
  destruct (publish_all L E q Hs Hdisk w data arch Ha Hd Hl)
    as (_ & Halb & _ & Harch & Hsome & _).
  specialize (Hsome Hq).
  destruct (archive (snd (invokeTimes (length q) PUBLISH E w))) as [d|] eqn:Hd';
    [|congruence].
  cbn [load] in Harch.
  destruct (unpublish_all L E q Hs Hdisk _ d arch [] Hd' Harch Halb)
    as (Hres & Halb' & Harch').
  rewrite app_nil_r in Halb'.
  rewrite (Queue_of w data _ Ha Hd), (Archive_of w _ Hl).
  repeat split; try assumption.
  - now apply Queue_of_load.
  - now apply Archive_of.
Qed.

End Sequences.

Section Windows.

Context {J : Json}.

(** X4. UNPUBLISH uploads the new pointer before it writes a file: when items
    remain in the Archive and the upload fails, UNPUBLISH stops with the
    upload error and [album.json] and [archive.json] are at no point of the
    run anything else than at the start. *)
Theorem unpublish_upload_failure_changes_no_file (E : Env) (w : World)
    data arch b item queue :
  archive w = Some data -> Unmarshal data = Some ((arch ++ [b]) ++ [item]) ->
  load (album w) = Some queue ->
  (forall p, readFault E p = false) ->
  sftpWorks E = false ->
  exists e r',
    unpublishProcess E (start w) = (inl (ErrUploading e), r') /\
    forall p, In p (points r') -> album p = album w /\ archive p = archive w.
Proof.
  intros Ha Hd Hl Hr Hs.
  destruct (unpublishProcess E (start w)) as [res r'] eqn:H.
  unfold_run H. rewrite !Hr, Ha in H; tidy H; rewrite Hd in H; tidy H.
  destruct ((arch ++ [b]) ++ [item]) as [|x l] eqn:El; [now destruct arch|].
  rewrite <- El in H. rewrite firstn_snoc, !nth_snoc in H. tidy H.
  destruct (arch ++ [b]) as [|y l'] eqn:El'; [now destruct arch|].
  tidy H. unfold load in Hl.
  run_all H; try congruence; done_run H.
  all: eexists; eexists; (split; [reflexivity|]).
  all: unfold points; cbn [now past]; intros p Hp; cbn in Hp;
    intuition (subst; cbn; congruence).
Qed.

(** X5. The purge of the CDN is advisory in UNPUBLISH too: when only it
    fails, UNPUBLISH succeeds, logs the warning, moves the item back and
    leaves the new last item of the Archive in [today.json]. *)
Theorem unpublish_cache_failure_is_advisory (L : JsonLaws J) (E : Env) (w : World)
    data arch b item queue :
  archive w = Some data -> Unmarshal data = Some ((arch ++ [b]) ++ [item]) ->
  load (album w) = Some queue ->
  sftpWorks E = true -> diskWorks E ->
  cacheWorks E = false ->
  exists r' e,
    unpublishProcess E (start w) = (inr tt, r') /\
    In (LogCacheWarning e) (logged r') /\
    Queue (now r') = item :: queue /\
    Archive (now r') = arch ++ [b] /\
    today (now r') = Some (MarshalItem b).
Proof.
  intros Ha Hd Hl Hs Hdisk Hc.
  destruct (Hdisk albumPath) as [Hr1 Hw1], (Hdisk archivePath) as [Hr2 Hw2].
  destruct (unpublishProcess E (start w)) as [res r'] eqn:H. exists r'.
  unfold_run H.
  rewrite Hr1, Hr2, Hw1, Hw2, Ha in H; tidy H; rewrite Hd in H; tidy H.
  destruct ((arch ++ [b]) ++ [item]) as [|x l] eqn:El; [now destruct arch|].
  rewrite <- El in H. rewrite firstn_snoc, !nth_snoc in H. tidy H.
  destruct (arch ++ [b]) as [|y l'] eqn:El'; [now destruct arch|].
  rewrite <- El' in H. rewrite !nth_snoc in H. tidy H.
  unfold load in Hl.
  run_all H; try congruence; done_run H.
  all: injection Hl as <-; eexists; split; [reflexivity|];
    unfold Queue, Archive; cbn [now logged album archive today];
    rewrite !(persisted_whole L);
    split; [cbn; eauto 10 | repeat split; auto].
Qed.

(** X6. UNPUBLISH of the only archived item never contacts the SFTP server:
    it succeeds whatever the state of the connection, and [today.json] is at
    no point of the run anything else than at the start - it goes on naming
    the item that is back in the Queue. *)
Theorem unpublish_of_the_last_item_keeps_the_pointer (L : JsonLaws J) (E : Env)
    (w : World) data item queue :
  archive w = Some data -> Unmarshal data = Some [item] ->
  load (album w) = Some queue ->
  diskWorks E ->
  exists r',
    unpublishProcess E (start w) = (inr tt, r') /\
    Queue (now r') = item :: queue /\
    Archive (now r') = [] /\
    forall p, In p (points r') -> today p = today w.
Proof.
  intros Ha Hd Hl Hdisk.
  destruct (unpublish_runs E w data [] item queue Ha Hd Hl) as (r' & Hrun & Hq & Harch);
    [congruence | assumption |].
  exists r'. split; [exact Hrun|].
  unfold Queue, Archive. rewrite Hq, Harch, !(persisted_whole L).
  repeat split.
  destruct (unpublish_success_inv E w r' Hrun)
    as (data' & arch' & item' & queue' & Ha' & Hd' & _ & _ & _ & Ht).
  rewrite Ha in Ha'. injection Ha' as <-. rewrite Hd in Hd'. injection Hd' as Hd'.
  change [item] with ([] ++ [item]) in Hd'.
  apply app_inj_tail in Hd' as [<- <-].
  destruct Ht as [[_ Ht]|(init & b & Hab & _)]; [exact Ht | now destruct init].
Qed.

(** X7. UNPUBLISH writes [archive.json] before [album.json]: when the second
    file cannot be opened for writing, UNPUBLISH fails with the item removed
    from the Archive and not added to the Queue. *)
Theorem unpublish_can_lose_the_item (L : JsonLaws J) (E : Env) (w : World)
    data arch item queue :
  archive w = Some data -> Unmarshal data = Some (arch ++ [item]) ->
  load (album w) = Some queue ->
  (forall p, readFault E p = false) ->
  (arch <> [] -> sftpWorks E = true) ->
  writeOutcome E archivePath = WriteOk ->
  writeOutcome E albumPath = WriteErrOpen ->
  exists r',
    unpublishProcess E (start w) = (inl ErrWritingAlbum, r') /\
    Archive (now r') = arch /\
    Queue (now r') = queue /\
    (~ In item arch -> ~ In item queue ->
     ~ In item (Queue (now r')) /\ ~ In item (Archive (now r'))).
Proof.
  intros Ha Hd Hl Hr Hs Hw1 Hw2.
  destruct (unpublishProcess E (start w)) as [res r'] eqn:H. exists r'.
  assert (Hgoal : res = inl ErrWritingAlbum /\
                  archive (now r') = Some (Marshal arch) /\ album (now r') = album w).
  { unfold_run H.
    rewrite !Hr, Hw1, Hw2, Ha in H; tidy H; rewrite Hd in H; tidy H.
    destruct (arch ++ [item]) as [|x l] eqn:El; [now destruct arch|].
    rewrite <- El in H. rewrite firstn_snoc, !nth_snoc in H. tidy H.
    unfold load in Hl.
    destruct arch as [|y l'].
    - run_all H; try congruence; done_run H; repeat split; cbn; congruence.
    - specialize (Hs ltac:(discriminate)).
      run_all H; try congruence; done_run H; repeat split; cbn; congruence. }
  destruct Hgoal as (-> & Earch & Ealb).
  assert (HA : Archive (now r') = arch)
    by (unfold Archive; now rewrite Earch, (persisted_whole L)).
  assert (HQ : Queue (now r') = queue)
    by (unfold Queue; rewrite Ealb; now apply Queue_of_load).
  repeat split; try assumption; now rewrite ?HA, ?HQ.
Qed.

(** X8. PUBLISH replaces [today.json] before it reads the Archive: every
    PUBLISH that fails after the upload leaves [today.json] naming the front
    item, and, unless the failure is in one of the two writes, leaves both
    files as they were - the item is announced and still queued. *)
Theorem publish_failure_after_upload_leaves_the_pointer_ahead (E : Env) (w : World)
    data item rest e r' :
  album w = Some data -> Unmarshal data = Some (item :: rest) ->
  readFault E albumPath = false ->
  sftpWorks E = true ->
  publishProcess E (start w) = (inl e, r') ->
  today (now r') = Some (MarshalItem item) /\
  (e <> ErrWritingArchive -> e <> ErrWritingAlbum ->
   album (now r') = album w /\ archive (now r') = archive w).
Proof.
  intros Ha Hd Hr Hs H.
  split; [|exact (publish_failure_files E w e r' H)].
  unfold_run H.
  rewrite Hr, Ha in H; tidy H; rewrite Hd in H; tidy H.
  run_all H; try congruence; done_run H; reflexivity.
Qed.

End Windows.

(** * The calls that leave the machine *)

Section Remote.

Context {J : Json}.

(** X9. [uploadToSFTP] returns nil exactly when the host, the user and a
    password or a key path are set, the port is empty or a number, and no
    step of the connection fails; [today.json] then holds the serialization
    of the item.  It never changes [album.json] or [archive.json], and when
    it fails before the remote write it changes nothing at all. *)
Theorem uploadToSFTP_outcomes (E : Env) (item : AlbumItem) (r : Run) :
  album (now (snd (uploadToSFTP E item r))) = album (now r) /\
  archive (now (snd (uploadToSFTP E item r))) = archive (now r) /\
  (fst (uploadToSFTP E item r) = inr tt <-> sftpWorks E = true) /\
  (fst (uploadToSFTP E item r) = inr tt ->
   today (now (snd (uploadToSFTP E item r))) = Some (MarshalItem item)) /\
  (forall e, fst (uploadToSFTP E item r) = inl e -> e <> SftpWrite ->
             snd (uploadToSFTP E item r) = r) /\
  (isEmpty (SFTP_HOST E) = true \/ isEmpty (SFTP_USER E) = true \/
   (isEmpty (SFTP_PASSWORD E) = true /\ isEmpty (SFTP_PRIVATE_KEY_PATH E) = true) ->
   uploadToSFTP E item r = (inl SftpEnvNotSet, r)).
Proof.
  assert (Hlast :
    isEmpty (SFTP_HOST E) = true \/ isEmpty (SFTP_USER E) = true \/
    (isEmpty (SFTP_PASSWORD E) = true /\ isEmpty (SFTP_PRIVATE_KEY_PATH E) = true) ->
    uploadToSFTP E item r = (inl SftpEnvNotSet, r)).
  { intros Hmiss. unfold uploadToSFTP.
    replace (isEmpty (SFTP_HOST E) || isEmpty (SFTP_USER E)
             || isEmpty (SFTP_PASSWORD E) && isEmpty (SFTP_PRIVATE_KEY_PATH E))
      with true; [reflexivity|].
    destruct Hmiss as [-> |[-> |[-> ->]]]; cbn;
      rewrite ?orb_true_r; reflexivity. }
  destruct (uploadToSFTP_cases E item r) as [[Hs Hu]|[[Hs [e Hu]]|[Hs [n Hu]]]];
    rewrite Hu in *; cbn [fst snd now album archive today storeToday];
    intuition (try congruence; try discriminate).
Qed.

(** X10. [invalidateCache] returns nil exactly when the API key and the CDN
    URL are set and the API answers with a status from 200 to 299; whatever
    it returns, it changes no file. *)
Theorem invalidateCache_outcomes (E : Env) (r : Run) :
  now (snd (invalidateCache E r)) = now r /\
  past (snd (invalidateCache E r)) = past r /\
  (fst (invalidateCache E r) = inr tt <->
   isEmpty (BUNNY_API_KEY E) = false /\ isEmpty (BUNNY_CDN_URL E) = false /\
   exists status, httpOutcome E = HttpStatus status /\ (200 <= status < 300)%Z).
Proof.
  unfold invalidateCache, fail, say.
  destruct (isEmpty (BUNNY_API_KEY E)), (isEmpty (BUNNY_CDN_URL E)); cbn;
    try (repeat split; try discriminate; intros (? & ? & _); discriminate).
  destruct (httpOutcome E) as [| |status]; cbn;
    try (repeat split; try discriminate; intros (_ & _ & ? & ? & _); discriminate).
  destruct (Z.ltb_spec status 200); cbn;
    [repeat split; try discriminate; intros (_ & _ & s & [= <-] & ?); lia|].
  destruct (Z.leb_spec 300 status); cbn.
  - repeat split; try discriminate; intros (_ & _ & s & [= <-] & ?); lia.
  - repeat split. exists status. split; [reflexivity | lia].
Qed.

End Remote.

Local Open Scope string_scope.

(** X11. [uploadFileToSFTP] returns nil exactly when [uploadToSFTP] would and
    the local file exists; the remote file of that name in [content] then
    holds the bytes of the local file.  It never changes a local file, never
    another remote file, and when it fails before the remote write it changes
    nothing at all. *)
Theorem uploadFileToSFTP_outcomes (E : Env) (path name : string) (st : Storage) :
  (forall n, uploads (snd (uploadFileToSFTP E path name st)) n = uploads st n) /\
  (forall n, n <> "content/" ++ name ->
             remote (snd (uploadFileToSFTP E path name st)) n = remote st n) /\
  (fst (uploadFileToSFTP E path name st) = None <->
   sftpWorks E = true /\ uploads st path <> None) /\
  (fst (uploadFileToSFTP E path name st) = None ->
   remote (snd (uploadFileToSFTP E path name st)) ("content/" ++ name)
   = uploads st path) /\
  (forall e, fst (uploadFileToSFTP E path name st) = Some e -> e <> SftpWrite ->
             snd (uploadFileToSFTP E path name st) = st).
Proof.
  unfold uploadFileToSFTP, sftpWorks.
  destruct (isEmpty (SFTP_HOST E) || isEmpty (SFTP_USER E)
            || (isEmpty (SFTP_PASSWORD E) && isEmpty (SFTP_PRIVATE_KEY_PATH E)));
    [cbn; repeat split; try discriminate; try tauto; intros [? _]; discriminate|].
  assert (Hput : forall data n, n <> "content/" ++ name ->
            put ("content" ++ "/" ++ name) data (remote st) n = remote st n).
  { intros data n Hn. unfold put. apply String.eqb_neq in Hn.
    change ("content" ++ "/" ++ name) with ("content/" ++ name). now rewrite Hn. }
  assert (Hget : forall data,
            put ("content" ++ "/" ++ name) data (remote st) ("content/" ++ name)
            = Some data).
  { intros data. unfold put.
    change ("content" ++ "/" ++ name) with ("content/" ++ name).
    now rewrite String.eqb_refl. }
  destruct (isEmpty (SFTP_PORT E)); [|destruct (Atoi (SFTP_PORT E))];
    destruct (isEmpty (SFTP_PASSWORD E)); destruct (sftpFault E);
    destruct (uploads st path) as [data|]; cbn;
    repeat split; try discriminate; try tauto; try congruence;
    try (intros; apply Hput; assumption); try (intros; apply Hget);
    try (intros [? ?]; congruence).
Qed.

Local Open Scope list_scope.
Local Open Scope nat_scope.

(** * The handlers of the album and of publish *)

Section AlbumHandler.

Context {J : Json}.

(** X12. What is posted to [/api/album] is what a GET returns, byte for byte,
    and when it is a document written by [json.Marshal] it is the Queue from
    then on: the handler saves the body as it is, with nothing failing. *)
Theorem album_post_then_get (L : JsonLaws J) (E : Env) (w : World)
    (requestBody ignored : string) :
  writeOutcome E albumPath = WriteOk ->
  readFault E albumPath = false ->
  code (fst (answer (albumHandler E "POST" requestBody) (start w))) = 200%Z /\
  fst (answer (albumHandler E "GET" ignored)
         (snd (answer (albumHandler E "POST" requestBody) (start w))))
  = {| code := 200; body := Raw requestBody; noted := None |} /\
  (forall q, requestBody = Marshal q ->
     Queue (now (snd (answer (albumHandler E "POST" requestBody) (start w)))) = q).
Proof.
  intros Hw Hr.
  unfold answer, albumHandler. cbn [String.eqb Ascii.eqb Bool.eqb].
  rewrite Hw.
  cbv [bind orReturn attempt Stat ReadFile look change ret fail start now past
       logged file]. rewrite Hr. cbn.
  repeat split. intros q ->. unfold Queue. cbn. apply (persisted_whole L).
Qed.

(** X13. A GET of [/api/album] changes nothing.  With no [album.json] it
    answers 200 with an empty object; with a file it answers 200 with the
    bytes of the file; when the file is there and cannot be read it answers
    500. *)
Theorem album_get_reads_only (E : Env) (r : Run) (ignored : string) :
  snd (answer (albumHandler E "GET" ignored) r) = r /\
  (readFault E albumPath = true -> album (now r) <> None ->
   code (fst (answer (albumHandler E "GET" ignored) r)) = 500%Z) /\
  (readFault E albumPath = false ->
   fst (answer (albumHandler E "GET" ignored) r)
   = {| code := 200;
        body := match album (now r) with Some data => Raw data | None => Raw "{}" end;
        noted := None |}).
Proof.
  unfold answer, albumHandler. cbn [String.eqb Ascii.eqb Bool.eqb].
  cbv [bind orReturn attempt Stat ReadFile look change ret fail file IsNotExist].
  destruct (readFault E albumPath); destruct (album (now r)) eqn:Ea; cbn;
    rewrite ?Ea; cbn; repeat split; intros; try reflexivity; discriminate.
Qed.

(** X14. The handler of [/api/album] does not parse what it saves: a body
    that is no album is answered 200 all the same, and from then on PUBLISH
    fails with a parse error and changes nothing, until another body is
    posted. *)
Theorem album_post_is_not_validated (E E' : Env) (w : World) (requestBody : string) :
  writeOutcome E albumPath = WriteOk ->
  Unmarshal requestBody = None ->
  readFault E' albumPath = false ->
  code (fst (answer (albumHandler E "POST" requestBody) (start w))) = 200%Z /\
  publishProcess E'
    (start (now (snd (answer (albumHandler E "POST" requestBody) (start w)))))
  = (inl ErrParsingAlbum,
     start (now (snd (answer (albumHandler E "POST" requestBody) (start w))))).
Proof.
  intros Hw Hbad Hr.
  unfold answer, albumHandler. cbn [String.eqb Ascii.eqb Bool.eqb].
  rewrite Hw.
  cbv [publishProcess bind orReturn attempt ReadFile unmarshal look change ret fail
       start now past logged file].
  cbn. rewrite Hr, Hbad. split; reflexivity.
Qed.

(** X15. Of the three files the handler of [/api/album] touches only
    [album.json], and only for a POST: at every point of every run
    [archive.json] and [today.json] are as at the start, and a request that
    is not a POST, or a POST whose file cannot be created, leaves everything
    as it was.  A POST that fails while it writes leaves the part of the body
    it wrote. *)
Theorem album_handler_touches_the_album_only (E : Env) (w : World)
    (method requestBody : string) :
  (forall p, In p (points (snd (answer (albumHandler E method requestBody) (start w)))) ->
     archive p = archive w /\ today p = today w) /\
  (method <> "POST" ->
   snd (answer (albumHandler E method requestBody) (start w)) = start w) /\
  (method = "POST" -> writeOutcome E albumPath = WriteErrOpen ->
   answer (albumHandler E method requestBody) (start w)
   = ({| code := 500; body := Message "Failed to create album file";
         noted := Some FailedToCreateAlbum |}, start w)) /\
  (forall n, method = "POST" -> writeOutcome E albumPath = WriteErrAfter n ->
   code (fst (answer (albumHandler E method requestBody) (start w))) = 500%Z /\
   album (now (snd (answer (albumHandler E method requestBody) (start w))))
   = Some (substring 0 n requestBody)).
Proof.
  unfold answer, albumHandler.
  destruct (String.eqb_spec method "OPTIONS") as [->|_];
    [cbn; intuition (subst; try reflexivity; try discriminate; try congruence)|].
  destruct (String.eqb_spec method "GET") as [->|_].
  { cbv [bind orReturn attempt Stat ReadFile look ret fail file IsNotExist start now].
    destruct (readFault E albumPath), (album w) eqn:Ea; cbn; rewrite ?Ea; cbn;
      intuition (subst; try reflexivity; try discriminate; try congruence). }
  destruct (String.eqb_spec method "POST") as [->|Hm];
    [|cbn; intuition (subst; try reflexivity; try discriminate; try congruence)].
  cbv [bind change fail start now past logged points].
  destruct (writeOutcome E albumPath); cbn;
    intuition (subst; try reflexivity; try discriminate; try congruence).
Qed.

(** X16. The handler of [/api/publish] runs PUBLISH for a POST and for
    nothing else.  It answers 200 exactly when [publishProcess] returns nil
    and 500 with the error otherwise, leaving the state [publishProcess]
    leaves; so a failure of the purge of the CDN alone is answered 200. *)
Theorem publish_handler_answers (E : Env) (method : string) (r : Run) :
  (method <> "POST" ->
   snd (answer (publishHandler E method) r) = r /\
   code (fst (answer (publishHandler E method) r))
   = if (method =? "OPTIONS")%string then 200%Z else 405%Z) /\
  (method = "POST" ->
   snd (answer (publishHandler E method) r) = snd (publishProcess E r) /\
   (code (fst (answer (publishHandler E method) r)) = 200%Z <->
    fst (publishProcess E r) = inr tt) /\
   (forall e, fst (publishProcess E r) = inl e ->
      fst (answer (publishHandler E method) r)
      = {| code := 500; body := Failure e; noted := Some (PublishFailed e) |})) /\
  (forall w data item rest arch,
     method = "POST" -> r = start w ->
     album w = Some data -> Unmarshal data = Some (item :: rest) ->
     load (archive w) = Some arch ->
     sftpWorks E = true -> diskWorks E -> cacheWorks E = false ->
     code (fst (answer (publishHandler E method) r)) = 200%Z).
Proof.
  assert (Hpost :
    snd (answer (publishHandler E "POST") r) = snd (publishProcess E r) /\
    (code (fst (answer (publishHandler E "POST") r)) = 200%Z <->
     fst (publishProcess E r) = inr tt) /\
    (forall e, fst (publishProcess E r) = inl e ->
       fst (answer (publishHandler E "POST") r)
       = {| code := 500; body := Failure e; noted := Some (PublishFailed e) |})).
  { unfold answer, publishHandler. cbn [String.eqb Ascii.eqb Bool.eqb negb].
    unfold bind, attempt, ret, fail.
    destruct (publishProcess E r) as [[e|[]] r']; cbn;
      repeat split; try discriminate; try reflexivity.
    intros e' [= <-]. reflexivity. }
  split; [|split].
  - intros Hm. apply String.eqb_neq in Hm.
    unfold answer, publishHandler.
    destruct (method =? "OPTIONS")%string; [split; reflexivity|].
    rewrite Hm. split; reflexivity.
  - intros ->. exact Hpost.
  - intros w data item rest arch -> -> Ha Hd Hl Hs Hdisk Hc.
    destruct Hpost as (_ & Hcode & _). apply Hcode.
    destruct (publish_runs E w data item rest arch Ha Hd Hl Hs Hdisk)
      as (r' & -> & _). reflexivity.
Qed.

End AlbumHandler.

(** * The content address and the upload handler *)

Module ShaFacts.

Import SHA256.

Lemma round_length (s : list Z) (kw : Z * Z) :
  length s = 8 -> length (round s kw) = 8.
Proof.
  do 9 (destruct s as [|? s]; try discriminate). reflexivity.
Qed.

Lemma rounds_length (l : list (Z * Z)) : forall s,
  length s = 8 -> length (fold_left round l s) = 8.
Proof.
  induction l as [|kw l IH]; intros s Hs; [exact Hs|].
  cbn [fold_left]. apply IH, round_length, Hs.
Qed.

Lemma block_length (h bytes : list Z) : length h = 8 -> length (block h bytes) = 8.
Proof.
  intros Hh. unfold block.
  rewrite length_map, length_combine, rounds_length, Hh by exact Hh. reflexivity.
Qed.

Lemma blocks_length (n : nat) : forall h bytes,
  length h = 8 -> length (blocks n h bytes) = 8.
Proof.
  induction n as [|n IH]; intros h bytes Hh; [exact Hh|].
  cbn [blocks]. apply IH, block_length, Hh.
Qed.

Lemma stringOf_length (l : list Z) : String.length (stringOf l) = length l.
Proof. induction l as [|b l IH]; [reflexivity|]. cbn. now rewrite IH. Qed.

Lemma words_length (h : list Z) : length (flat_map (bigEndian 4) h) = 4 * length h.
Proof.
  induction h as [|x h IH]; [reflexivity|].
  cbn [flat_map]. rewrite length_app, IH. cbn [bigEndian length]. lia.
Qed.

Lemma Sum256_length (data : string) : String.length (Sum256 data) = 32.
Proof.
  unfold Sum256. rewrite stringOf_length, words_length, blocks_length; reflexivity.
Qed.

End ShaFacts.

Section Uploads.

Local Open Scope string_scope.

Lemma hexDigit_lower (n : nat) : (n < 16)%nat -> isLowerHex (hexDigit n) = true.
Proof.
  intros Hn. do 16 (destruct n as [|n]; [reflexivity|]). lia.
Qed.

Lemma hex_length (s : string) : String.length (hex s) = (2 * String.length s)%nat.
Proof. induction s as [|c s IH]; [reflexivity|]. cbn [hex String.length]. lia. Qed.

Lemma hex_lower (s : string) : allChars isLowerHex (hex s) = true.
Proof.
  induction s as [|c s IH]; [reflexivity|].
  cbn [hex allChars].
  pose proof (nat_ascii_bounded c) as Hc.
  rewrite !hexDigit_lower, IH; [reflexivity| |].
  - apply Nat.mod_upper_bound. discriminate.
  - apply Nat.Div0.div_lt_upper_bound. exact Hc.
Qed.

Lemma allChars_app (p : ascii -> bool) (s t : string) :
  allChars p (s ++ t) = allChars p s && allChars p t.
Proof.
  induction s as [|c s IH]; [reflexivity|].
  cbn [append allChars]. now rewrite IH, andb_assoc.
Qed.

Lemma allChars_weaken (p q : ascii -> bool) (s : string) :
  (forall c, p c = true -> q c = true) -> allChars p s = true -> allChars q s = true.
Proof.
  intros Hpq. induction s as [|c s IH]; [reflexivity|].
  cbn [allChars]. intros [Hc Hs]%andb_prop. now rewrite (Hpq c Hc), IH.
Qed.

(** The extension is empty or the suffix at a dot after which no separator
    comes. *)
Lemma extFrom_shape (path : string) : forall found,
  (found = "" \/ exists mid, found = String "." (mid ++ path) /\
                             allChars notSeparator mid = true) ->
  extFrom path found = "" \/
  exists e, extFrom path found = String "." e /\ allChars notSeparator e = true.
Proof.
  induction path as [|c rest IH]; intros found Hf.
  - cbn [extFrom]. destruct Hf as [->|(mid & -> & Hmid)]; [now left|].
    right. exists mid. now rewrite CompactFacts.append_empty.
  - cbn [extFrom].
    destruct (Ascii.eqb_spec c "/") as [->|Hsep]; [apply IH; now left|].
    destruct (Ascii.eqb_spec c ".") as [->|Hdot].
    + apply IH. right. exists "". split; reflexivity.
    + apply IH. destruct Hf as [->|(mid & -> & Hmid)]; [now left|].
      right. exists (mid ++ String c ""). split.
      * now rewrite CompactFacts.append_assoc.
      * rewrite allChars_app, Hmid. cbn. unfold notSeparator.
        apply Ascii.eqb_neq in Hsep. now rewrite Hsep.
Qed.

Lemma Ext_shape (path : string) :
  Ext path = "" \/
  exists e, Ext path = String "." e /\ allChars notSeparator e = true.
Proof. apply extFrom_shape. now left. Qed.

Lemma Ext_flat (path : string) : allChars notSeparator (Ext path) = true.
Proof.
  destruct (Ext_shape path) as [->|(e & -> & He)]; [reflexivity|].
  cbn [allChars]. now rewrite He.
Qed.

(** X17. The name under which an upload is stored is sixty-four lower-case
    hexadecimal digits followed by the extension of the file name, which is
    empty or starts with a dot; no separator occurs in it, whatever the file
    name of the form is: the remote file lies in [content] itself. *)
Theorem content_address_is_flat (f : FormFile) :
  String.length (hex (SHA256.Sum256 (contents f))) = 64%nat /\
  allChars isLowerHex (hex (SHA256.Sum256 (contents f))) = true /\
  (Ext (Filename f) = "" \/ exists e, Ext (Filename f) = String "." e) /\
  allChars notSeparator (contentAddress f) = true /\
  allChars notSeparator (Ext (Filename f)) = true.
Proof.
  split; [|split; [|split; [|split]]].
  - now rewrite hex_length, ShaFacts.Sum256_length.
  - apply hex_lower.
  - destruct (Ext_shape (Filename f)) as [->|(e & -> & _)]; [now left|].
    right. now exists e.
  - unfold contentAddress. rewrite allChars_app, Ext_flat, andb_true_r.
    apply allChars_weaken with (p := isLowerHex); [|apply hex_lower].
    intros c Hc. unfold notSeparator.
    destruct (Ascii.eqb_spec c "/") as [->|_]; [discriminate Hc|reflexivity].
  - apply Ext_flat.
Qed.

(** The temporary name and the final name differ: the guard of the rename is
    always true. *)
Lemma final_is_not_temp (U : UploadEnv) (f : FormFile) :
  (finalPathOf f =? tempPathOf U f) = false.
Proof.
  unfold finalPathOf, tempPathOf, contentAddress.
  pose proof (hex_lower (SHA256.Sum256 (contents f))) as Hl.
  pose proof (hex_length (SHA256.Sum256 (contents f))) as Hn.
  rewrite ShaFacts.Sum256_length in Hn.
  destruct (hex (SHA256.Sum256 (contents f))) as [|c d]; [discriminate Hn|].
  cbn [allChars] in Hl. apply andb_prop in Hl as [Hc _].
  apply String.eqb_neq. cbn [append]. intros [= ->]. discriminate Hc.
Qed.


Lemma Copy_flag (ps : list string) : forall failsAfter dst h,
  snd (Copy failsAfter ps dst h)
  = match failsAfter with None => true | Some n => (length ps <? n)%nat end.
Proof.
  induction ps as [|p ps IH]; intros fa dst h.
  - destruct fa as [[|k]|]; reflexivity.
  - destruct fa as [[|k]|]; cbn [Copy option_map Nat.pred]; [reflexivity| |].
    + rewrite IH. reflexivity.
    + rewrite IH. reflexivity.
Qed.

Lemma Copy_cases (U : UploadEnv) (f : FormFile) :
  (copyCompletes U f = true /\
   exists h, Copy (copyFailsAfter U) (pieces f) "" {| written := "" |}
             = (contents f, h, true) /\ written h = contents f) \/
  (copyCompletes U f = false /\
   exists dst h, Copy (copyFailsAfter U) (pieces f) "" {| written := "" |}
                 = (dst, h, false)).
Proof.
  pose proof (Copy_flag (pieces f) (copyFailsAfter U) "" {| written := "" |}) as Hflag.
  fold (copyCompletes U f) in Hflag.
  destruct (Copy (copyFailsAfter U) (pieces f) "" {| written := "" |})
    as [[dst h] ok] eqn:HC.
  cbn [snd] in Hflag. subst ok.
  destruct (copyCompletes U f).
  - left. split; [reflexivity|].
    apply Copy_done in HC as [-> Hh]. exists h. split; [reflexivity|exact Hh].
  - right. split; [reflexivity|]. now exists dst, h.
Qed.

Lemma uploadFileToSFTP_cases (E : Env) (path name : string) (st : Storage) :
  (sftpWorks E = true /\
   exists data, uploads st path = Some data /\
     uploadFileToSFTP E path name st = (None, putRemote ("content/" ++ name) data st)) \/
  ((sftpWorks E = false \/ uploads st path = None) /\
   exists e, e <> SftpWrite /\ uploadFileToSFTP E path name st = (Some e, st)) \/
  (sftpWorks E = false /\
   exists n data, sftpFault E = FaultWrite n /\ uploads st path = Some data /\
     uploadFileToSFTP E path name st
     = (Some SftpWrite, putRemote ("content/" ++ name) (substring 0 n data) st)).
Proof.
  unfold uploadFileToSFTP, sftpWorks.
  destruct (isEmpty (SFTP_HOST E) || isEmpty (SFTP_USER E)
            || (isEmpty (SFTP_PASSWORD E) && isEmpty (SFTP_PRIVATE_KEY_PATH E)));
    [right; left; split; [now left|eexists; split; [|reflexivity]; discriminate]|].
  destruct (isEmpty (SFTP_PORT E)); [|destruct (Atoi (SFTP_PORT E))];
    destruct (isEmpty (SFTP_PASSWORD E)); destruct (sftpFault E);
    destruct (uploads st path) as [data|]; cbn;
    first
      [ left; split; [reflexivity|]; eexists; split; reflexivity
      | right; left; split; [first [now left|now right]|];
        eexists; split; [|reflexivity]; discriminate
      | right; right; split; [reflexivity|]; do 2 eexists; repeat split ].
Qed.

(** What a POST with a file does once the temporary file is created: the
    local files left, the answer and the remote files. *)
Lemma upload_cases (E : Env) (U : UploadEnv) (f : FormFile) (st : Storage) :
  mkdirFails U = false -> createFails U = false ->
  (forall n,
     uploads (snd (uploadHandler E U (post f) st)) n
     = if n =? tempPathOf U f then None
       else if copyCompletes U f && (n =? finalPathOf f) then None
       else uploads st n) /\
  ((copyCompletes U f = false /\
    fst (uploadHandler E U (post f) st) = {| status := 500; url := None |} /\
    remote (snd (uploadHandler E U (post f) st)) = remote st) \/
   (copyCompletes U f = true /\ sftpWorks E = true /\
    fst (uploadHandler E U (post f) st)
    = {| status := 200; url := Some (cdnBase E ++ "/content/" ++ contentAddress f) |} /\
    remote (snd (uploadHandler E U (post f) st))
    = put (remotePathOf f) (contents f) (remote st)) \/
   (copyCompletes U f = true /\ sftpWorks E = false /\
    fst (uploadHandler E U (post f) st) = {| status := 500; url := None |} /\
    (remote (snd (uploadHandler E U (post f) st)) = remote st \/
     exists n, sftpFault E = FaultWrite n /\
       remote (snd (uploadHandler E U (post f) st))
       = put (remotePathOf f) (substring 0 n (contents f)) (remote st)))).
Proof.
  intros Hmk Hcr.
  pose proof (final_is_not_temp U f) as Hft.
  unfold uploadHandler, post. cbn [Method file_].
  change ("POST" =? "OPTIONS") with false. change ("POST" =? "POST") with true.
  cbv iota. cbn [negb]. rewrite Hmk, Hcr.
  destruct (Copy_cases U f) as [[Hc (h & -> & Hh)]|[Hc (dst & h & ->)]]; rewrite Hc.
  2:{ split.
      - intros n. unfold removeLocal, putLocal, remove, put. cbn [snd uploads andb].
        fold (tempPathOf U f). now destruct (n =? tempPathOf U f).
      - left. repeat split. }
  unfold hasherSum. rewrite Hh.
  fold (contentAddress f). fold (tempPathOf U f). fold (finalPathOf f).
  rewrite Hft. cbn [negb andb].
  set (temp := tempPathOf U f) in *. set (final := finalPathOf f) in *.
  assert (Htf : (temp =? final) = false) by now rewrite String.eqb_sym.
  destruct (renameFails U); cbn [negb].
  - match goal with
    | |- context [uploadFileToSFTP E ?p ?n ?s] =>
        destruct (uploadFileToSFTP_cases E p n s)
          as [(Hw & data & Hd & ->)|[(Hw & e & He & ->)|(Hw & k & data & Hk & Hd & ->)]]
    end.
    + revert Hd. unfold removeLocal, putLocal, remove, put. cbn [uploads].
      rewrite Htf, String.eqb_refl. intros [= <-]. split.
      * intros n. unfold removeLocal, putLocal, putRemote, remove, put.
        cbn [snd uploads]. destruct (n =? temp), (n =? final); reflexivity.
      * right; left. repeat split; assumption.
    + destruct Hw as [Hw|Hnone].
      2:{ revert Hnone. unfold removeLocal, putLocal, remove, put. cbn [uploads].
          rewrite Htf, String.eqb_refl. discriminate. }
      split.
      * intros n. unfold removeLocal, putLocal, putRemote, remove, put.
        cbn [snd uploads]. destruct (n =? temp), (n =? final); reflexivity.
      * right; right. repeat split; try assumption. now left.
    + revert Hd. unfold removeLocal, putLocal, remove, put. cbn [uploads].
      rewrite Htf, String.eqb_refl. intros [= <-]. split.
      * intros n. unfold removeLocal, putLocal, putRemote, remove, put.
        cbn [snd uploads]. destruct (n =? temp), (n =? final); reflexivity.
      * right; right. repeat split; try assumption. right. now exists k.
  - match goal with
    | |- context [uploadFileToSFTP E ?p ?n ?s] =>
        destruct (uploadFileToSFTP_cases E p n s)
          as [(Hw & data & Hd & ->)|[(Hw & e & He & ->)|(Hw & k & data & Hk & Hd & ->)]]
    end.
    + revert Hd. unfold removeLocal, putLocal, remove, put. cbn [uploads].
      rewrite String.eqb_refl. intros [= <-]. split.
      * intros n. unfold removeLocal, putLocal, putRemote, remove, put.
        cbn [snd uploads]. destruct (n =? temp), (n =? final); reflexivity.
      * right; left. repeat split; assumption.
    + destruct Hw as [Hw|Hnone].
      2:{ revert Hnone. unfold removeLocal, putLocal, remove, put. cbn [uploads].
          rewrite String.eqb_refl. discriminate. }
      split.
      * intros n. unfold removeLocal, putLocal, putRemote, remove, put.
        cbn [snd uploads]. destruct (n =? temp), (n =? final); reflexivity.
      * right; right. repeat split; try assumption. now left.
    + revert Hd. unfold removeLocal, putLocal, remove, put. cbn [uploads].
      rewrite String.eqb_refl. intros [= <-]. split.
      * intros n. unfold removeLocal, putLocal, putRemote, remove, put.
        cbn [snd uploads]. destruct (n =? temp), (n =? final); reflexivity.
      * right; right. repeat split; try assumption. right. now exists k.
Qed.

Lemma upload_refused (E : Env) (U : UploadEnv) (r : Request) (st : Storage) :
  Method r <> "POST" \/ file_ r = None \/ mkdirFails U = true \/ createFails U = true ->
  uploadHandler E U r st
  = ({| status := if Method r =? "OPTIONS" then 200%Z
                  else if negb (Method r =? "POST") then 405%Z
                  else match file_ r with None => 400%Z | Some _ => 500%Z end;
        url := None |}, st).
Proof.
  intros H. unfold uploadHandler.
  destruct (Method r =? "OPTIONS"); [reflexivity|].
  destruct (String.eqb_spec (Method r) "POST") as [Hm|Hm]; cbn [negb]; [|reflexivity].
  destruct (file_ r) as [f|]; [|reflexivity].
  destruct (mkdirFails U); [reflexivity|].
  destruct (createFails U); [reflexivity|].
  destruct H as [H|[H|[H|H]]]; congruence.
Qed.

Lemma upload_accepted (E : Env) (U : UploadEnv) (r : Request) (st : Storage) :
  status (fst (uploadHandler E U r st)) = 200%Z ->
  Method r = "OPTIONS" \/
  exists f, Method r = "POST" /\ file_ r = Some f /\
            mkdirFails U = false /\ createFails U = false /\
            uploadHandler E U r st = uploadHandler E U (post f) st.
Proof.
  destruct (String.eqb_spec (Method r) "OPTIONS") as [Ho|Ho]; [now left|].
  destruct (String.eqb_spec (Method r) "POST") as [Hm|Hm].
  2:{ rewrite upload_refused by now left.
      apply String.eqb_neq in Ho, Hm. rewrite Ho, Hm. discriminate. }
  destruct (file_ r) as [f|] eqn:Hf.
  2:{ rewrite upload_refused by (right; now left).
      apply String.eqb_neq in Ho. rewrite Ho, Hm, Hf. discriminate. }
  destruct (mkdirFails U) eqn:Hmk.
  { rewrite upload_refused by (right; right; now left).
    apply String.eqb_neq in Ho. rewrite Ho, Hm, Hf. discriminate. }
  destruct (createFails U) eqn:Hcr.
  { rewrite upload_refused by (right; right; now right).
    apply String.eqb_neq in Ho. rewrite Ho, Hm, Hf. discriminate. }
  intros _. right. exists f. repeat split; try assumption.
  destruct r as [m fl]. cbn in Hm, Hf. subst. reflexivity.
Qed.

(** X18. Once the temporary file is created the upload handler leaves no
    local file of its own behind, whether it answers 200 or 500: the
    temporary name holds nothing when it returns, and after a complete copy
    the final name holds nothing either, even when a file of that name was
    there before.  No other local file is changed. *)
Theorem upload_leaves_no_local_file (E : Env) (U : UploadEnv) (f : FormFile)
    (st : Storage) :
  mkdirFails U = false -> createFails U = false ->
  uploads (snd (uploadHandler E U (post f) st)) (tempPathOf U f) = None /\
  (copyCompletes U f = true ->
   uploads (snd (uploadHandler E U (post f) st)) (finalPathOf f) = None) /\
  (forall n, n <> tempPathOf U f ->
     copyCompletes U f = false \/ n <> finalPathOf f ->
     uploads (snd (uploadHandler E U (post f) st)) n = uploads st n).
Proof.
  intros Hmk Hcr.
  destruct (upload_cases E U f st Hmk Hcr) as [Hlocal _].
  split; [|split].
  - rewrite Hlocal, String.eqb_refl. reflexivity.
  - intros Hc. rewrite Hlocal, Hc, String.eqb_refl.
    now destruct (finalPathOf f =? tempPathOf U f).
  - intros n Ht Hf. rewrite Hlocal.
    apply String.eqb_neq in Ht. rewrite Ht.
    destruct Hf as [->|Hf]; [reflexivity|].
    apply String.eqb_neq in Hf. rewrite Hf. now rewrite andb_false_r.
Qed.

(** X19. A POST with a file for which the temporary file is created is
    answered 200 exactly when the copy reaches the end of the file and the
    SFTP upload succeeds, and 500 otherwise; a rename that fails does not
    matter.  The URL of a 200 is the CDN base, [/content/] and the content
    address, and the remote file at the content address holds the bytes of
    the upload. *)
Theorem upload_answers (E : Env) (U : UploadEnv) (f : FormFile) (st : Storage) :
  mkdirFails U = false -> createFails U = false ->
  (status (fst (uploadHandler E U (post f) st)) = 200%Z <->
   copyCompletes U f = true /\ sftpWorks E = true) /\
  (status (fst (uploadHandler E U (post f) st)) = 200%Z ->
   url (fst (uploadHandler E U (post f) st))
   = Some (cdnBase E ++ "/content/" ++ contentAddress f) /\
   remote (snd (uploadHandler E U (post f) st)) (remotePathOf f) = Some (contents f)) /\
  (status (fst (uploadHandler E U (post f) st)) <> 200%Z ->
   fst (uploadHandler E U (post f) st) = {| status := 500; url := None |}).
Proof.
  intros Hmk Hcr.
  destruct (upload_cases E U f st Hmk Hcr)
    as [_ [(Hc & -> & Hr)|[(Hc & Hw & -> & Hr)|(Hc & Hw & -> & Hr)]]];
    cbn [status url]; rewrite ?Hr.
  - repeat split; try discriminate; try congruence. intros [? _]; congruence.
  - repeat split; try assumption; try congruence.
    unfold put. now rewrite String.eqb_refl.
  - repeat split; try discriminate; try congruence. intros [_ ?]; congruence.
Qed.

(** X20. Whatever the request, the upload handler changes at most one remote
    file, the one at the content address of the file of the form; and unless
    the remote write itself breaks off, a request that is not answered 200
    changes no remote file at all. *)
Theorem upload_writes_one_remote_file (E : Env) (U : UploadEnv) (r : Request)
    (st : Storage) :
  (forall n, (forall f, file_ r = Some f -> n <> remotePathOf f) ->
     remote (snd (uploadHandler E U r st)) n = remote st n) /\
  (status (fst (uploadHandler E U r st)) <> 200%Z ->
   (forall k, sftpFault E <> FaultWrite k) ->
   remote (snd (uploadHandler E U r st)) = remote st).
Proof.
  destruct (String.eqb_spec (Method r) "POST") as [Hm|Hm];
    [|rewrite upload_refused by (now left); split; reflexivity].
  destruct (file_ r) as [f|] eqn:Hf;
    [|rewrite upload_refused by (right; now left); split; reflexivity].
  destruct (mkdirFails U) eqn:Hmk;
    [rewrite upload_refused by (right; right; now left); split; reflexivity|].
  destruct (createFails U) eqn:Hcr;
    [rewrite upload_refused by (right; right; now right); split; reflexivity|].
  assert (r = post f) as -> by (destruct r; cbn in *; subst; reflexivity).
  destruct (upload_cases E U f st Hmk Hcr)
    as [_ [(Hc & -> & Hr)|[(Hc & Hw & -> & Hr)|(Hc & Hw & -> & [Hr|(k & Hk & Hr)])]]];
    cbn [status]; rewrite Hr; split; try reflexivity; try congruence.
  - intros n Hn. specialize (Hn f eq_refl). apply String.eqb_neq in Hn.
    unfold put. now rewrite Hn.
  - intros n Hn. specialize (Hn f eq_refl). apply String.eqb_neq in Hn.
    unfold put. now rewrite Hn.
Qed.

(** X21. A request the upload handler refuses changes nothing, locally or
    remotely: OPTIONS is answered 200, another method that is not POST 405,
    a POST without a file 400, and a POST whose upload directory or
    temporary file cannot be created 500. *)
Theorem upload_refusals_change_nothing (E : Env) (U : UploadEnv) (r : Request)
    (st : Storage) :
  Method r <> "POST" \/ file_ r = None \/ mkdirFails U = true \/ createFails U = true ->
  snd (uploadHandler E U r st) = st /\
  url (fst (uploadHandler E U r st)) = None /\
  status (fst (uploadHandler E U r st))
  = if Method r =? "OPTIONS" then 200%Z
    else if negb (Method r =? "POST") then 405%Z
    else match file_ r with None => 400%Z | Some _ => 500%Z end.
Proof.
  intros H. rewrite (upload_refused E U r st H). repeat split.
Qed.

(** X22. Uploading the same file again changes nothing on the server: when
    both uploads are answered 200, every remote file after the second is
    what it was after the first, and the two URLs name the same remote file,
    whatever the clock and the file name were, as long as the extension is
    the same. *)
Theorem upload_twice_is_upload_once (E E' : Env) (U U' : UploadEnv)
    (f f' : FormFile) (st : Storage) :
  contents f' = contents f -> Ext (Filename f') = Ext (Filename f) ->
  status (fst (uploadHandler E U (post f) st)) = 200%Z ->
  status (fst (uploadHandler E' U' (post f')
                 (snd (uploadHandler E U (post f) st)))) = 200%Z ->
  remotePathOf f' = remotePathOf f /\
  forall n,
    remote (snd (uploadHandler E' U' (post f')
                   (snd (uploadHandler E U (post f) st)))) n
    = remote (snd (uploadHandler E U (post f) st)) n.
Proof.
  intros Hsame Hext H1 H2.
  assert (Hpath : remotePathOf f' = remotePathOf f).
  { unfold remotePathOf, contentAddress. now rewrite Hsame, Hext. }
  split; [exact Hpath|].
  destruct (upload_accepted _ _ _ _ H1) as [Ho|(g & _ & Hg & Hmk & Hcr & _)];
    [discriminate Ho|]. injection Hg as <-.
  destruct (upload_accepted _ _ _ _ H2) as [Ho|(g & _ & Hg & Hmk' & Hcr' & _)];
    [discriminate Ho|]. injection Hg as <-.
  destruct (upload_cases E U f st Hmk Hcr)
    as [_ [(Hc & Hs & Hr)|[(Hc & Hw & Hs & Hr)|(Hc & Hw & Hs & Hr)]]];
    try (rewrite Hs in H1; discriminate H1).
  set (st1 := snd (uploadHandler E U (post f) st)) in *.
  destruct (upload_cases E' U' f' st1 Hmk' Hcr')
    as [_ [(Hc' & Hs' & Hr')|[(Hc' & Hw' & Hs' & Hr')|(Hc' & Hw' & Hs' & Hr')]]];
    try (rewrite Hs' in H2; discriminate H2).
  intros n. rewrite Hr', Hr, Hpath, Hsame. unfold put.
  now destruct (n =? remotePathOf f).
Qed.

End Uploads.

Local Open Scope list_scope.
Local Open Scope nat_scope.

(** * The editor of the Queue *)

Section Editor.

Lemma findIndexFrom_none {A : Type} (p : A -> bool) (l : list A) : forall i,
  (forall x, In x l -> p x = false) -> findIndexFrom p l i = (-1)%Z.
Proof.
  induction l as [|x l IH]; intros i Hl; [reflexivity|].
  cbn [findIndexFrom]. rewrite (Hl x (or_introl eq_refl)).
  apply IH. intros y Hy. apply Hl. now right.
Qed.

Lemma findIndexFrom_found {A : Type} (p : A -> bool) (l : list A) : forall i x,
  In x l -> p x = true ->
  exists pre y post,
    l = pre ++ y :: post /\ p y = true /\ (forall z, In z pre -> p z = false) /\
    findIndexFrom p l i = (i + Z.of_nat (length pre))%Z.
Proof.
  induction l as [|a l IH]; intros i x Hin Hx; [destruct Hin|].
  cbn [findIndexFrom]. destruct (p a) eqn:Ha.
  - exists [], a, l. repeat split; [assumption|intros z []|cbn; lia].
  - assert (Hin' : In x l) by (destruct Hin as [->|H]; [congruence|exact H]).
    destruct (IH (i + 1)%Z x Hin' Hx) as (pre & y & post & -> & Hy & Hpre & Hi).
    exists (a :: pre), y, post. repeat split; [assumption| |].
    + intros z [<-|Hz]; [exact Ha|now apply Hpre].
    + rewrite Hi. cbn [length]. lia.
Qed.

Lemma findIndex_cases {A : Type} (p : A -> bool) (l : list A) :
  ((forall x, In x l -> p x = false) /\ findIndex p l = (-1)%Z) \/
  (exists pre y post,
     l = pre ++ y :: post /\ p y = true /\ (forall z, In z pre -> p z = false) /\
     findIndex p l = Z.of_nat (length pre)).
Proof.
  unfold findIndex.
  destruct (existsb p l) eqn:He.
  - apply existsb_exists in He as (x & Hin & Hx). right.
    destruct (findIndexFrom_found p l 0%Z x Hin Hx) as (pre & y & post & H1 & H2 & H3 & H4).
    exists pre, y, post. repeat split; assumption.
  - left. assert (Hall : forall x, In x l -> p x = false).
    { intros x Hin. destruct (p x) eqn:Hx; [|reflexivity].
      assert (existsb p l = true) by (apply existsb_exists; now exists x).
      congruence. }
    split; [exact Hall|now apply findIndexFrom_none].
Qed.

(** Whatever the numbers, [splice] loses nothing and invents nothing. *)
Lemma splice_keeps {A : Type} (start deleteCount : Z) (inserted l : list A) :
  Permutation (fst (splice start deleteCount inserted l)
               ++ snd (splice start deleteCount inserted l))
              (inserted ++ l).
Proof.
  unfold splice. cbn [fst snd].
  set (len := Z.of_nat (length l)).
  set (a := if (start <? 0)%Z then Z.max (len + start) 0 else Z.min start len).
  set (d := Z.min (Z.max deleteCount 0) (len - a)).
  assert (Ha : (0 <= a <= len)%Z).
  { unfold a, len. destruct (Z.ltb_spec start 0); lia. }
  assert (Hd : (0 <= d)%Z) by (unfold d; lia).
  rewrite Z2Nat.inj_add by lia.
  rewrite Nat.add_comm, <- skipn_skipn.
  set (F := firstn (Z.to_nat a) l).
  set (R := firstn (Z.to_nat d) (skipn (Z.to_nat a) l)).
  set (S := skipn (Z.to_nat d) (skipn (Z.to_nat a) l)).
  assert (Hl : l = F ++ R ++ S).
  { unfold F, R, S. now rewrite !firstn_skipn. }
  replace (inserted ++ l) with (inserted ++ F ++ R ++ S) by (now rewrite <- Hl).
  etransitivity; [apply Permutation_app_swap_app|].
  etransitivity; [|apply Permutation_app_swap_app].
  apply Permutation_app_head. apply Permutation_app_swap_app.
Qed.

Lemma splice_nothing {A : Type} (start : Z) (inserted l : list A) :
  fst (splice start 0 inserted l) = [].
Proof.
  unfold splice. cbn [fst].
  set (len := Z.of_nat (length l)).
  set (a := if (start <? 0)%Z then Z.max (len + start) 0 else Z.min start len).
  assert (Ha : (0 <= a <= len)%Z).
  { unfold a, len. destruct (Z.ltb_spec start 0); lia. }
  replace (Z.min (Z.max 0 0) (len - a)) with 0%Z by lia. reflexivity.
Qed.

Lemma firstn_exact {A : Type} (pre l : list A) : firstn (length pre) (pre ++ l) = pre.
Proof. induction pre as [|x pre IH]; [apply firstn_O|]. cbn. now rewrite IH. Qed.

Lemma skipn_exact {A : Type} (pre l : list A) : skipn (length pre) (pre ++ l) = l.
Proof. induction pre as [|x pre IH]; [reflexivity|]. cbn. exact IH. Qed.

(** [splice] with numbers that lie in the array. *)
Lemma splice_at {A : Type} (n d : nat) (inserted l : list A) :
  n + d <= length l ->
  splice (Z.of_nat n) (Z.of_nat d) inserted l
  = (firstn d (skipn n l), firstn n l ++ inserted ++ skipn (n + d) l).
Proof.
  intros Hn. unfold splice.
  destruct (Z.ltb_spec (Z.of_nat n) 0) as [H|_]; [lia|].
  replace (Z.min (Z.of_nat n) (Z.of_nat (length l))) with (Z.of_nat n) by lia.
  replace (Z.min (Z.max (Z.of_nat d) 0) (Z.of_nat (length l) - Z.of_nat n))
    with (Z.of_nat d) by lia.
  now rewrite <- Nat2Z.inj_add, !Nat2Z.id.
Qed.

(** [splice] with -1: the start is the index of the last element. *)
Lemma splice_from_end {A : Type} (deleteCount : Z) (inserted l : list A) :
  splice (-1) deleteCount inserted l
  = splice (Z.of_nat (length l - 1)) deleteCount inserted l.
Proof.
  unfold splice.
  change (-1 <? 0)%Z with true. cbv iota.
  destruct (Z.ltb_spec (Z.of_nat (length l - 1)) 0) as [H|_]; [lia|].
  replace (Z.max (Z.of_nat (length l) + -1) 0) with (Z.of_nat (length l - 1)) by lia.
  replace (Z.min (Z.of_nat (length l - 1)) (Z.of_nat (length l)))
    with (Z.of_nat (length l - 1)) by lia.
  reflexivity.
Qed.

Lemma splice_take {A : Type} (pre : list A) (x : A) (post : list A) :
  splice (Z.of_nat (length pre)) 1 [] (pre ++ x :: post) = ([x], pre ++ post).
Proof.
  rewrite (splice_at (length pre) 1) by (rewrite length_app; cbn [length]; lia).
  rewrite skipn_exact, firstn_exact. cbn [firstn app].
  replace (length pre + 1) with (length (pre ++ [x]))
    by (rewrite length_app; reflexivity).
  change (x :: post) with ([x] ++ post).
  now rewrite app_assoc, skipn_exact.
Qed.

Lemma splice_put {A : Type} (n : nat) (inserted l : list A) :
  n <= length l ->
  splice (Z.of_nat n) 0 inserted l = ([], firstn n l ++ inserted ++ skipn n l).
Proof.
  intros Hn. rewrite (splice_at n 0) by lia. now rewrite Nat.add_0_r.
Qed.

Lemma splice_take_last {A : Type} (init : list A) (last : A) :
  splice (-1) 1 [] (init ++ [last]) = ([last], init).
Proof.
  rewrite splice_from_end, length_app. cbn [length].
  replace (length init + 1 - 1) with (length init) by lia.
  now rewrite splice_take, app_nil_r.
Qed.

Lemma splice_put_before_last {A : Type} (inserted l : list A) :
  splice (-1) 0 inserted l
  = ([], firstn (length l - 1) l ++ inserted ++ skipn (length l - 1) l).
Proof.
  rewrite splice_from_end. apply splice_put. lia.
Qed.

Lemma strictEq_eq (a b : ItemID) : strictEq a b = true <-> a = b.
Proof.
  destruct a as [|s|n], b as [|t|m]; cbn; split; try discriminate; try reflexivity.
  - now intros ->%String.eqb_eq.
  - intros [= ->]. apply String.eqb_refl.
  - now intros ->%Z.eqb_eq.
  - intros [= ->]. apply Z.eqb_refl.
Qed.

Lemma strictEq_neq (a b : ItemID) : strictEq a b = false <-> a <> b.
Proof.
  rewrite <- strictEq_eq. destruct (strictEq a b); split; congruence.
Qed.

(** X23. Whatever is dragged and wherever it is dropped, [onDragEnd] sets an
    array that holds the same items as before, each as often as before: the
    editor loses and duplicates nothing by reordering, and ids that were
    unique stay unique.  When it does not call [onAlbumChange] the array is
    the one it was. *)
Theorem drag_keeps_every_item (draggable droppable : option ItemID)
    (currentItems : list AlbumItem) :
  Permutation (fst (onDragEnd draggable droppable currentItems)) currentItems /\
  (NoDup (map ID currentItems) ->
   NoDup (map ID (fst (onDragEnd draggable droppable currentItems)))) /\
  (snd (onDragEnd draggable droppable currentItems) = false ->
   fst (onDragEnd draggable droppable currentItems) = currentItems).
Proof.
  assert (HP : Permutation (fst (onDragEnd draggable droppable currentItems))
                 currentItems).
  { unfold onDragEnd.
    destruct draggable as [dg|], droppable as [dp|]; try reflexivity.
    destruct (negb _); [|reflexivity].
    pose proof (splice_keeps
                  (findIndex (fun item => strictEq (ID item) dg) currentItems) 1 []
                  currentItems) as H1.
    destruct (splice _ 1 [] currentItems) as [taken rest]. cbn [fst snd] in H1.
    pose proof (splice_keeps
                  (findIndex (fun item => strictEq (ID item) dp) currentItems) 0 taken
                  rest) as H2.
    pose proof (splice_nothing
                  (findIndex (fun item => strictEq (ID item) dp) currentItems) taken
                  rest) as H3.
    destruct (splice _ 0 taken rest) as [none updated]. cbn [fst snd] in *.
    subst none. cbn [app] in *. now rewrite H2, H1. }
  split; [exact HP|split].
  - intros HU. eapply Permutation_NoDup; [|exact HU].
    apply Permutation_map. symmetry. exact HP.
  - unfold onDragEnd.
    destruct draggable as [dg|], droppable as [dp|]; try reflexivity.
    destruct (negb _); [|reflexivity].
    destruct (splice _ 1 [] currentItems) as [taken rest].
    destruct (splice _ 0 taken rest) as [none updated]. discriminate.
Qed.

(** X24. When the dragged item and the drop target are both in the array, at
    the indices [i] and [j], the dragged item is at index [j] afterwards, the
    place the target had, and the other items are in the order they were;
    [onAlbumChange] is called. *)
Theorem drag_moves_the_item_to_the_place_of_the_target
    (draggableId droppableId : ItemID) (currentItems : list AlbumItem) (i j : nat) :
  findIndex (fun item => strictEq (ID item) draggableId) currentItems = Z.of_nat i ->
  findIndex (fun item => strictEq (ID item) droppableId) currentItems = Z.of_nat j ->
  i <> j ->
  exists item,
    nth_error currentItems i = Some item /\ ID item = draggableId /\
    nth_error (fst (onDragEnd (Some draggableId) (Some droppableId) currentItems)) j
    = Some item /\
    firstn j (fst (onDragEnd (Some draggableId) (Some droppableId) currentItems))
    ++ skipn (S j) (fst (onDragEnd (Some draggableId) (Some droppableId) currentItems))
    = firstn i currentItems ++ skipn (S i) currentItems /\
    snd (onDragEnd (Some draggableId) (Some droppableId) currentItems) = true.
Proof.
  intros Hi Hj Hij.
  assert (Hjlen : j < length currentItems).
  { destruct (findIndex_cases (fun item => strictEq (ID item) droppableId) currentItems)
      as [[_ H]|(pre & y & post & -> & _ & _ & H)]; rewrite H in Hj; [lia|].
    rewrite length_app. cbn [length]. lia. }
  destruct (findIndex_cases (fun item => strictEq (ID item) draggableId) currentItems)
    as [[_ H]|(pre & item & post & -> & Hitem & _ & H)]; rewrite H in Hi; [lia|].
  apply Nat2Z.inj in Hi. subst i.
  apply strictEq_eq in Hitem.
  rewrite length_app in Hjlen. cbn [length] in Hjlen.
  assert (Hj' : j <= length (pre ++ post)) by (rewrite length_app; lia).
  exists item.
  unfold onDragEnd. rewrite H, Hj.
  replace (Z.of_nat (length pre) =? Z.of_nat j)%Z with false
    by (symmetry; apply Z.eqb_neq; lia).
  cbn [negb]. rewrite splice_take, (splice_put j [item] (pre ++ post) Hj').
  cbn [fst snd].
  assert (Hlen : length (firstn j (pre ++ post)) = j) by (rewrite length_firstn; lia).
  pose proof (firstn_skipn j (pre ++ post)) as Hrest.
  set (F := firstn j (pre ++ post)) in *.
  set (G := skipn j (pre ++ post)) in *.
  repeat split.
  - rewrite nth_error_app2, Nat.sub_diag by lia. reflexivity.
  - exact Hitem.
  - rewrite nth_error_app2, Hlen, Nat.sub_diag by lia. reflexivity.
  - replace (firstn j (F ++ [item] ++ G)) with F
      by (rewrite <- Hlen; symmetry; apply firstn_exact).
    replace (skipn (S j) (F ++ [item] ++ G)) with G.
    2:{ rewrite app_assoc.
        replace (S j) with (length (F ++ [item]))
          by (rewrite length_app, Hlen; cbn [length]; lia).
        symmetry. apply skipn_exact. }
    rewrite Hrest, firstn_exact.
    change (item :: post) with ([item] ++ post). rewrite app_assoc.
    replace (S (length pre)) with (length (pre ++ [item]))
      by (rewrite length_app; cbn [length]; lia).
    now rewrite skipn_exact.
Qed.

(** X25. An id that no item has is the index -1 for [splice], which counts
    it from the end.  So when the dragged id is unknown and the drop target
    is at index [j], it is the last item of the array that moves to [j]; when
    the drop target is unknown, the dragged item moves to the place before
    the last of the others; when both are unknown nothing changes and
    [onAlbumChange] is not called. *)
Theorem drag_with_an_unknown_id (draggableId droppableId : ItemID)
    (currentItems : list AlbumItem) :
  (forall j init last,
     (forall x, In x currentItems -> ID x <> draggableId) ->
     findIndex (fun item => strictEq (ID item) droppableId) currentItems = Z.of_nat j ->
     currentItems = init ++ [last] ->
     onDragEnd (Some draggableId) (Some droppableId) currentItems
     = (firstn j init ++ [last] ++ skipn j init, true)) /\
  (forall pre item post,
     (forall x, In x currentItems -> ID x <> droppableId) ->
     currentItems = pre ++ item :: post ->
     ID item = draggableId -> (forall x, In x pre -> ID x <> draggableId) ->
     onDragEnd (Some draggableId) (Some droppableId) currentItems
     = (firstn (length (pre ++ post) - 1) (pre ++ post) ++ [item]
        ++ skipn (length (pre ++ post) - 1) (pre ++ post), true)) /\
  ((forall x, In x currentItems -> ID x <> draggableId) ->
   (forall x, In x currentItems -> ID x <> droppableId) ->
   onDragEnd (Some draggableId) (Some droppableId) currentItems
   = (currentItems, false)).
Proof.
  assert (Hnone : forall id, (forall x, In x currentItems -> ID x <> id) ->
            findIndex (fun item => strictEq (ID item) id) currentItems = (-1)%Z).
  { intros id Hid. apply findIndexFrom_none. intros x Hx.
    apply strictEq_neq. now apply Hid. }
  split; [|split].
  - intros j init last Hdg Hj ->.
    assert (Hjlen : j <= length init).
    { destruct (findIndex_cases (fun item => strictEq (ID item) droppableId)
                  (init ++ [last]))
        as [[_ H]|(pre & y & post & E & _ & _ & H)]; rewrite H in Hj; [lia|].
      apply (f_equal (@length _)) in E. rewrite !length_app in E.
      cbn [length] in E. lia. }
    unfold onDragEnd. rewrite (Hnone _ Hdg), Hj.
    replace (-1 =? Z.of_nat j)%Z with false by (symmetry; apply Z.eqb_neq; lia).
    cbn [negb]. rewrite splice_take_last, (splice_put j [last] init Hjlen).
    reflexivity.
  - intros pre item post Hdp -> Hitem Hpre.
    assert (Hfrom : findIndex (fun x => strictEq (ID x) draggableId) (pre ++ item :: post)
                    = Z.of_nat (length pre)).
    { destruct (findIndex_cases (fun x => strictEq (ID x) draggableId)
                  (pre ++ item :: post))
        as [[Hno _]|(pre' & y & post' & E & Hy & Hpre' & H)].
      - specialize (Hno item (in_elt item pre post)).
        apply strictEq_neq in Hno. congruence.
      - rewrite H. f_equal.
        destruct (Nat.lt_trichotomy (length pre') (length pre)) as [Hlt|[Heq|Hgt]];
          [|exact Heq|].
        + exfalso. apply (Hpre y); [|now apply strictEq_eq].
          assert (Hn : nth_error (pre ++ item :: post) (length pre') = Some y).
          { rewrite E, nth_error_app2, Nat.sub_diag by lia. reflexivity. }
          rewrite nth_error_app1 in Hn by exact Hlt.
          now apply nth_error_In in Hn.
        + exfalso.
          assert (Hn : nth_error (pre' ++ y :: post') (length pre) = Some item).
          { rewrite <- E, nth_error_app2, Nat.sub_diag by lia. reflexivity. }
          rewrite nth_error_app1 in Hn by exact Hgt.
          apply nth_error_In in Hn. specialize (Hpre' item Hn).
          apply strictEq_neq in Hpre'. congruence. }
    unfold onDragEnd. rewrite (Hnone _ Hdp), Hfrom.
    replace (Z.of_nat (length pre) =? -1)%Z with false
      by (symmetry; apply Z.eqb_neq; lia).
    cbn [negb]. rewrite splice_take, splice_put_before_last. reflexivity.
  - intros Hdg Hdp. unfold onDragEnd. rewrite (Hnone _ Hdg), (Hnone _ Hdp).
    reflexivity.
Qed.

(** X26. [deleteItem] takes out every item of the id and no other item.
    When the ids are unique it takes out the one item of that id and leaves
    the others in their order; when no item has the id the array is as it
    was. *)
Theorem delete_removes_the_id (id : ItemID) (currentItems : list AlbumItem) :
  (forall x, In x (deleteItem id currentItems) <-> In x currentItems /\ ID x <> id) /\
  (forall pre item post,
     NoDup (map ID currentItems) -> currentItems = pre ++ item :: post ->
     ID item = id -> deleteItem id currentItems = pre ++ post) /\
  (~ In id (map ID currentItems) -> deleteItem id currentItems = currentItems).
Proof.
  assert (Hkeep : forall l, ~ In id (map ID l) -> deleteItem id l = l).
  { induction l as [|x l IH]; intros Hl; [reflexivity|].
    cbn [deleteItem filter map In] in *.
    assert (Hx : strictEq (ID x) id = false) by (apply strictEq_neq; tauto).
    rewrite Hx. cbn [negb]. f_equal. apply IH. tauto. }
  split; [|split].
  - intros x. unfold deleteItem. rewrite filter_In, negb_true_iff, strictEq_neq.
    reflexivity.
  - intros pre item post HU -> Hid.
    rewrite map_app in HU. cbn [map] in HU.
    pose proof (NoDup_remove_2 _ _ _ HU) as Hnot.
    rewrite Hid in Hnot. rewrite in_app_iff in Hnot.
    unfold deleteItem. rewrite filter_app. cbn [filter].
    assert (Hx : strictEq (ID item) id = true) by now apply strictEq_eq.
    rewrite Hx. cbn [negb].
    fold (deleteItem id pre). fold (deleteItem id post).
    rewrite !Hkeep by tauto. reflexivity.
  - apply Hkeep.
Qed.

End Editor.

(** * The further properties on the concrete machine *)

Module Walks.

Import Scenario.
Import Cases.

Local Open Scope string_scope.
Local Open Scope list_scope.

(** X1 on the scenario: a PUBLISH, a PUBLISH that cannot connect, an
    UNPUBLISH. *)
Lemma timeline_is_kept_witness :
  timeline (next UNPUBLISH calm (next PUBLISH offline (next PUBLISH calm queued)))
  = timeline queued.
Proof.
  refine (timeline_is_kept compactJson_laws queued
            (next UNPUBLISH calm (next PUBLISH offline (next PUBLISH calm queued))) _).
  refine (reach_step notHalfWritten queued
            (next PUBLISH offline (next PUBLISH calm queued)) UNPUBLISH calm _ _).
  - refine (reach_step notHalfWritten queued (next PUBLISH calm queued)
              PUBLISH offline _ _).
    + refine (reach_step notHalfWritten queued queued PUBLISH calm _ _).
      * apply ReachStart.
      * split; vm_compute; discriminate.
    + split; vm_compute; discriminate.
  - split; vm_compute; discriminate.
Defined.

(** X2 on the scenario: two PUBLISH empty the Queue, a third is refused. *)
Lemma publishing_the_whole_queue_witness :
  fst (invokeTimes (length [one; two]) PUBLISH calm queued)
  = repeat (inr tt) (length [one; two]) /\
  Queue (snd (invokeTimes (length [one; two]) PUBLISH calm queued)) = [] /\
  Archive (snd (invokeTimes (length [one; two]) PUBLISH calm queued)) = [] ++ [one; two] /\
  (forall last, back [one; two] = Some last ->
     today (snd (invokeTimes (length [one; two]) PUBLISH calm queued))
     = Some (MarshalItem last)) /\
  publishProcess calm (start (snd (invokeTimes (length [one; two]) PUBLISH calm queued)))
  = (inl ErrNoItemsInAlbum,
     start (snd (invokeTimes (length [one; two]) PUBLISH calm queued))).
Proof.
  refine (publishing_the_whole_queue compactJson_laws calm queued
            (Marshal [one; two]) [one; two] [] _ _ _ _ _).
  - reflexivity.
  - intros p. split; reflexivity.
  - reflexivity.
  - vm_compute. reflexivity.
  - reflexivity.
Defined.

(** X3 on the scenario: two PUBLISH, two UNPUBLISH. *)
Lemma unpublishing_everything_published_witness :
  fst (invokeTimes (length [one; two]) UNPUBLISH calm
         (snd (invokeTimes (length [one; two]) PUBLISH calm queued)))
  = repeat (inr tt) (length [one; two]) /\
  Queue (snd (invokeTimes (length [one; two]) UNPUBLISH calm
                (snd (invokeTimes (length [one; two]) PUBLISH calm queued))))
  = Queue queued /\
  Archive (snd (invokeTimes (length [one; two]) UNPUBLISH calm
                  (snd (invokeTimes (length [one; two]) PUBLISH calm queued))))
  = Archive queued.
Proof.
  refine (unpublishing_everything_published compactJson_laws calm queued
            (Marshal [one; two]) [one; two] [] _ _ _ _ _).
  - reflexivity.
  - intros p. split; reflexivity.
  - reflexivity.
  - vm_compute. reflexivity.
  - reflexivity.
Defined.

(** X4 on the scenario: UNPUBLISH of item 2 with no connection. *)
Lemma unpublish_upload_failure_changes_no_file_witness :
  sftpWorks offline = false /\
  exists e r',
    unpublishProcess offline (start publishedBoth) = (inl (ErrUploading e), r') /\
    forall p, In p (points r') ->
              album p = album publishedBoth /\ archive p = archive publishedBoth.
Proof.
  split; [reflexivity|].
  refine (unpublish_upload_failure_changes_no_file offline publishedBoth
            (Marshal [one; two]) [] one two [] _ _ _ _ _).
  - reflexivity.
  - vm_compute. reflexivity.
  - vm_compute. reflexivity.
  - intros p. reflexivity.
  - reflexivity.
Defined.

(** X5 on the scenario: UNPUBLISH of item 2 while the CDN answers 503. *)
Lemma unpublish_cache_failure_is_advisory_witness :
  cacheWorks unpurged = false /\
  exists r' e,
    unpublishProcess unpurged (start publishedBoth) = (inr tt, r') /\
    In (LogCacheWarning e) (logged r') /\
    Queue (now r') = two :: [] /\
    Archive (now r') = [] ++ [one] /\
    today (now r') = Some (MarshalItem one).
Proof.
  split; [reflexivity|].
  refine (unpublish_cache_failure_is_advisory compactJson_laws unpurged publishedBoth
            (Marshal [one; two]) [] one two [] _ _ _ _ _ _).
  - reflexivity.
  - vm_compute. reflexivity.
  - vm_compute. reflexivity.
  - reflexivity.
  - intros p. split; reflexivity.
  - reflexivity.
Defined.

(** X6 on the scenario: UNPUBLISH of the only published item, with no
    connection. *)
Lemma unpublish_of_the_last_item_keeps_the_pointer_witness :
  sftpWorks offline = false /\
  exists r',
    unpublishProcess offline (start publishedOne) = (inr tt, r') /\
    Queue (now r') = one :: [two] /\
    Archive (now r') = [] /\
    forall p, In p (points r') -> today p = today publishedOne.
Proof.
  split; [reflexivity|].
  refine (unpublish_of_the_last_item_keeps_the_pointer compactJson_laws offline
            publishedOne (Marshal [one]) one [two] _ _ _ _).
  - reflexivity.
  - vm_compute. reflexivity.
  - vm_compute. reflexivity.
  - intros p. split; reflexivity.
Defined.

(** X7 on the scenario: UNPUBLISH of item 2 when [album.json] cannot be
    opened for writing; item 2 is in neither file. *)
Lemma unpublish_can_lose_the_item_witness :
  exists r',
    unpublishProcess albumLocked (start publishedBoth) = (inl ErrWritingAlbum, r') /\
    Archive (now r') = [one] /\
    Queue (now r') = [] /\
    (~ In two [one] -> ~ In two [] ->
     ~ In two (Queue (now r')) /\ ~ In two (Archive (now r'))).
Proof.
  refine (unpublish_can_lose_the_item compactJson_laws albumLocked publishedBoth
            (Marshal [one; two]) [one] two [] _ _ _ _ _ _ _).
  - reflexivity.
  - vm_compute. reflexivity.
  - vm_compute. reflexivity.
  - intros p. reflexivity.
  - intros _. reflexivity.
  - reflexivity.
  - reflexivity.
Defined.

(** X8 on the scenario: PUBLISH with an [archive.json] that is no JSON. *)
Lemma publish_failure_after_upload_leaves_the_pointer_ahead_witness :
  publishProcess calm (start brokenArchive)
  = (inl ErrParsingArchive, snd (publishProcess calm (start brokenArchive))) /\
  today (now (snd (publishProcess calm (start brokenArchive))))
  = Some (MarshalItem one) /\
  (ErrParsingArchive <> ErrWritingArchive -> ErrParsingArchive <> ErrWritingAlbum ->
   album (now (snd (publishProcess calm (start brokenArchive)))) = album brokenArchive /\
   archive (now (snd (publishProcess calm (start brokenArchive))))
   = archive brokenArchive).
Proof.
  split; [vm_compute; reflexivity|].
  refine (publish_failure_after_upload_leaves_the_pointer_ahead calm brokenArchive
            (Marshal [one; two]) one [two] ErrParsingArchive
            (snd (publishProcess calm (start brokenArchive))) _ _ _ _ _).
  - reflexivity.
  - vm_compute. reflexivity.
  - reflexivity.
  - reflexivity.
  - vm_compute. reflexivity.
Defined.

(** X12 on the scenario: the album of two items is posted where no file
    was. *)
Lemma album_post_then_get_witness :
  code (fst (answer (albumHandler calm "POST" (Marshal [one; two])) (start noFiles)))
  = 200%Z /\
  fst (answer (albumHandler calm "GET" "")
         (snd (answer (albumHandler calm "POST" (Marshal [one; two])) (start noFiles))))
  = {| code := 200; body := Raw (Marshal [one; two]); noted := None |} /\
  (forall q, Marshal [one; two] = Marshal q ->
     Queue (now (snd (answer (albumHandler calm "POST" (Marshal [one; two]))
                        (start noFiles)))) = q).
Proof.
  refine (album_post_then_get compactJson_laws calm noFiles (Marshal [one; two]) "" _ _).
  - reflexivity.
  - reflexivity.
Defined.

(** X14 on the scenario: a body that is no JSON is saved over the album. *)
Lemma album_post_is_not_validated_witness :
  Unmarshal "oops" = None /\
  code (fst (answer (albumHandler calm "POST" "oops") (start queued))) = 200%Z /\
  publishProcess calm
    (start (now (snd (answer (albumHandler calm "POST" "oops") (start queued)))))
  = (inl ErrParsingAlbum,
     start (now (snd (answer (albumHandler calm "POST" "oops") (start queued))))).
Proof.
  split; [vm_compute; reflexivity|].
  refine (album_post_is_not_validated calm calm queued "oops" _ _ _).
  - reflexivity.
  - vm_compute. reflexivity.
  - reflexivity.
Defined.

(** X18 on the scenario: an upload whose rename fails. *)
Lemma upload_leaves_no_local_file_witness :
  uploads (snd (uploadHandler calm later (post abcJpg) emptyStorage))
    (tempPathOf later abcJpg) = None /\
  (copyCompletes later abcJpg = true ->
   uploads (snd (uploadHandler calm later (post abcJpg) emptyStorage))
     (finalPathOf abcJpg) = None) /\
  (forall n, n <> tempPathOf later abcJpg ->
     copyCompletes later abcJpg = false \/ n <> finalPathOf abcJpg ->
     uploads (snd (uploadHandler calm later (post abcJpg) emptyStorage)) n
     = uploads emptyStorage n).
Proof.
  refine (upload_leaves_no_local_file calm later abcJpg emptyStorage _ _).
  - reflexivity.
  - reflexivity.
Defined.

(** X19 on the scenario: the upload of [abc] as [photo.jpg]. *)
Lemma upload_answers_witness :
  (status (fst (uploadHandler calm noon (post abcJpg) emptyStorage)) = 200%Z <->
   copyCompletes noon abcJpg = true /\ sftpWorks calm = true) /\
  (status (fst (uploadHandler calm noon (post abcJpg) emptyStorage)) = 200%Z ->
   url (fst (uploadHandler calm noon (post abcJpg) emptyStorage))
   = Some (cdnBase calm ++ "/content/" ++ contentAddress abcJpg)%string /\
   remote (snd (uploadHandler calm noon (post abcJpg) emptyStorage))
     (remotePathOf abcJpg) = Some (contents abcJpg)) /\
  (status (fst (uploadHandler calm noon (post abcJpg) emptyStorage)) <> 200%Z ->
   fst (uploadHandler calm noon (post abcJpg) emptyStorage)
   = {| status := 500; url := None |}).
Proof.
  refine (upload_answers calm noon abcJpg emptyStorage _ _).
  - reflexivity.
  - reflexivity.
Defined.

(** X21 on the scenario: a GET of [/api/upload]. *)
Lemma upload_refusals_change_nothing_witness :
  snd (uploadHandler calm noon getRequest emptyStorage) = emptyStorage /\
  url (fst (uploadHandler calm noon getRequest emptyStorage)) = None /\
  status (fst (uploadHandler calm noon getRequest emptyStorage))
  = if Method getRequest =? "OPTIONS" then 200%Z
    else if negb (Method getRequest =? "POST") then 405%Z
    else match file_ getRequest with None => 400%Z | Some _ => 500%Z end.
Proof.
  refine (upload_refusals_change_nothing calm noon getRequest emptyStorage _).
  left. discriminate.
Defined.

(** X22 on the scenario: [abc] as [photo.jpg], then the same bytes in two
    pieces under a name that climbs out of the directory. *)
Lemma upload_twice_is_upload_once_witness :
  remotePathOf climbing = remotePathOf abcJpg /\
  forall n,
    remote (snd (uploadHandler calm later (post climbing)
                   (snd (uploadHandler calm noon (post abcJpg) emptyStorage)))) n
    = remote (snd (uploadHandler calm noon (post abcJpg) emptyStorage)) n.
Proof.
  refine (upload_twice_is_upload_once calm calm noon later abcJpg climbing
            emptyStorage _ _ _ _).
  - vm_compute. reflexivity.
  - reflexivity.
  - vm_compute. reflexivity.
  - vm_compute. reflexivity.
Defined.

(** The editor on three items: item 1 dropped on item 3, item 3 dropped on
    item 1, and a drag whose id no item has. *)
Example drags :
  onDragEnd (Some (IDString "1")) (Some (IDString "3")) [one; two; three]
  = ([two; three; one], true) /\
  onDragEnd (Some (IDString "3")) (Some (IDString "1")) [one; two; three]
  = ([three; one; two], true) /\
  onDragEnd (Some (IDString "9")) (Some (IDString "1")) [one; two; three]
  = ([three; one; two], true) /\
  onDragEnd (Some (IDString "1")) (Some (IDString "9")) [one; two; three]
  = ([two; one; three], true) /\
  onDragEnd (Some (IDNumber 1)) (Some (IDString "1")) [one; two; three]
  = ([three; one; two], true) /\
  onDragEnd (Some (IDString "2")) (Some (IDString "2")) [one; two; three]
  = ([one; two; three], false) /\
  onDragEnd None (Some (IDString "2")) [one; two; three] = ([one; two; three], false).
Proof. repeat split. Qed.

(** X24 on the scenario: item 1 is dropped on item 3. *)
Lemma drag_moves_the_item_to_the_place_of_the_target_witness :
  exists item,
    nth_error [one; two; three] 0 = Some item /\ ID item = IDString "1" /\
    nth_error (fst (onDragEnd (Some (IDString "1")) (Some (IDString "3"))
                      [one; two; three])) 2 = Some item /\
    firstn 2 (fst (onDragEnd (Some (IDString "1")) (Some (IDString "3"))
                     [one; two; three]))
    ++ skipn 3 (fst (onDragEnd (Some (IDString "1")) (Some (IDString "3"))
                       [one; two; three]))
    = firstn 0 [one; two; three] ++ skipn 1 [one; two; three] /\
    snd (onDragEnd (Some (IDString "1")) (Some (IDString "3")) [one; two; three])
    = true.
Proof.
  refine (drag_moves_the_item_to_the_place_of_the_target
            (IDString "1") (IDString "3") [one; two; three] 0 2 _ _ _).
  - reflexivity.
  - reflexivity.
  - discriminate.
Defined.

(** X25 on the scenario: the id 9 is dragged to item 1, and item 3 moves. *)
Lemma drag_with_an_unknown_id_witness :
  onDragEnd (Some (IDString "9")) (Some (IDString "1")) [one; two; three]
  = (firstn 0 [one; two] ++ [three] ++ skipn 0 [one; two], true).
Proof.
  destruct (drag_with_an_unknown_id (IDString "9") (IDString "1") [one; two; three])
    as (H & _ & _).
  refine (H 0 [one; two] three _ _ _).
  - intros x [<-|[<-|[<-|[]]]]; discriminate.
  - reflexivity.
  - reflexivity.
Defined.

(** X26 on the scenario: item 2 is deleted. *)
Lemma delete_removes_the_id_witness :
  deleteItem (IDString "2") [one; two; three] = [one] ++ [three].
Proof.
  destruct (delete_removes_the_id (IDString "2") [one; two; three]) as (_ & H & _).
  refine (H [one] two [three] _ _ _).
  - repeat constructor; cbn; intuition discriminate.
  - reflexivity.
  - reflexivity.
Defined.

End Walks.
